(** * Xopt orchestrator: index bookkeeping, completion wait and merge

    A shallow embedding of [xopt/base.py] (class [Xopt]) and a verification
    of its bookkeeping: the pending-input table, the in-flight futures
    dictionary, the observation table and the last-index counter.

    Python objects that are shared and mutated live in an explicit store:
    - [frames]: the DataFrame objects a caller can hold a reference to;
    - [pool]:   the [concurrent.futures.Future] objects, which worker threads
                resolve behind the orchestrator's back.
    The orchestrator itself is the record [Xopt]; its methods are state
    transformers in the monad [M], whose results are a returned value, a
    raised exception (the state reached so far is kept, as in Python) or a
    call that blocks for ever. *)

From Stdlib Require Import ZArith String Permutation QArith Qminmax.
From stdpp Require Import base tactics option list list_numbers numbers strings.

Close Scope Q_scope.
Open Scope Z_scope.

(** ** Values, rows, dictionaries *)

Inductive value :=
  | VBool (b : bool)
  | VStr (s : string)
  | VNum (z : Z).

#[global] Instance value_eq_dec : EqDecision value.
Proof. solve_decision. Defined.

(** A Python [dict]: insertion ordered, keys unique by construction of
    [dict_set]. *)
Abbreviation dict K V := (list (K * V)).

Section dict.
Context {K V : Type} `{EqDecision K}.

Fixpoint dict_get (k : K) (d : dict K V) : option V :=
  match d with
  | [] => None
  | (k', v) :: d' => if decide (k = k') then Some v else dict_get k d'
  end.

(** [d[k] = v] *)
Fixpoint dict_set (k : K) (v : V) (d : dict K V) : dict K V :=
  match d with
  | [] => [(k, v)]
  | (k', v') :: d' =>
      if decide (k = k') then (k, v) :: d' else (k', v') :: dict_set k v d'
  end.

(** [d.update(d')] *)
Definition dict_update (d d' : dict K V) : dict K V :=
  foldl (λ acc kv, dict_set kv.1 kv.2 acc) d d'.

(** [d.pop(k)]: [None] stands for [KeyError]. *)
Fixpoint dict_pop (k : K) (d : dict K V) : option (V * dict K V) :=
  match d with
  | [] => None
  | (k', v') :: d' =>
      if decide (k = k') then Some (v', d')
      else match dict_pop k d' with
           | Some (v, r) => Some (v, (k', v') :: r)
           | None => None
           end
  end.

Definition keys (d : dict K V) : list K := d.*1.
Definition values (d : dict K V) : list V := d.*2.
End dict.

(** A row of a table: column name to cell. *)
Abbreviation row := (dict string value).

(** ** Exceptions *)

Record exc := { exc_class : string; exc_msg : string }.

#[global] Instance exc_eq_dec : EqDecision exc.
Proof. solve_decision. Defined.

Definition XoptError (msg : string) : exc :=
  {| exc_class := "XoptError"; exc_msg := msg |}.
Definition AttributeError (msg : string) : exc :=
  {| exc_class := "AttributeError"; exc_msg := msg |}.
Definition KeyError (msg : string) : exc :=
  {| exc_class := "KeyError"; exc_msg := msg |}.
Definition InvalidIndexError : exc :=
  {| exc_class := "InvalidIndexError";
     exc_msg := "Reindexing only valid with uniquely valued Index objects" |}.
(** Raised by the model only, when a store reference does not exist;
    Python has no dangling references. *)
Definition ReferenceError : exc :=
  {| exc_class := "ReferenceError"; exc_msg := "no such object" |}.

Definition NoneType_has_no (attr : string) : exc :=
  AttributeError ("'NoneType' object has no attribute '" +:+ attr +:+ "'").

(** [traceback.format_exc()] inside an [except] block: the report of the
    exception being handled. It always starts with the header line; the
    stack-frame lines between the header and the last line are not
    modelled. *)
Definition newline : string := String (Ascii.ascii_of_nat 10) EmptyString.

Definition format_exc (e : exc) : string :=
  "Traceback (most recent call last):" +:+ newline
    +:+ exc_class e +:+ ": " +:+ exc_msg e +:+ newline.

(** ** DataFrames

    A [pandas.DataFrame] is its list of rows, each with its index label, in
    table order. Labels may repeat, as in pandas. Column metadata of a frame
    without rows and the filling of absent cells with NaN are not modelled. *)
Abbreviation DataFrame := (list (Z * row)).

Definition index (df : DataFrame) : list Z := df.*1.

Definition len (df : DataFrame) : Z := Z.of_nat (length df).

(** [numpy.arange(start, stop)] on integers *)
Definition arange (start stop : Z) : list Z := seqZ start (stop - start).

(** [df.index = labels], for as many labels as rows *)
Definition set_index (labels : list Z) (df : DataFrame) : DataFrame :=
  zip labels df.*2.

(** [pd.concat([a, b])] along the rows, where [a] may be [None] (pandas
    drops [None] entries) and [b] is a frame. No check of label
    uniqueness is made by pandas. *)
Definition pd_concat (a : option DataFrame) (b : DataFrame) : DataFrame :=
  match a with
  | None => b
  | Some a => a ++ b
  end.

Definition rows_at (ix : Z) (df : DataFrame) : DataFrame :=
  filter (λ r, r.1 = ix) df.

(** [df.loc[labels]] with a list of labels: the rows carrying each label, in
    the order of [labels]; [KeyError] when a label is absent. *)
Fixpoint loc (df : DataFrame) (labels : list Z) : exc + DataFrame :=
  match labels with
  | [] => inr []
  | ix :: rest =>
      match rows_at ix df with
      | [] => inl (KeyError "not in index")
      | r :: rs =>
          match loc df rest with
          | inl e => inl e
          | inr tl => inr ((r :: rs) ++ tl)
          end
      end
  end.

(** [df.drop(labels)]: all rows carrying one of the labels are removed;
    [KeyError] when a label is absent. *)
Definition drop_labels (df : DataFrame) (labels : list Z) : exc + DataFrame :=
  if decide (Forall (λ ix, ix ∈ index df) labels)
  then inr (filter (λ r, r.1 ∉ labels) df)
  else inl (KeyError "not found in axis").

(** [pd.DataFrame(records, index=labels)] from a list of dicts *)
Definition DataFrame_of_records (records : list row) (labels : list Z)
  : DataFrame := zip labels records.

(** [pd.concat([a, b], axis=1)] as [update_data] uses it. With equal
    indexes the rows are joined position by position. With unique but
    different indexes pandas would align the rows by label; in
    [update_data], [b] is indexed by the distinct keys [ix_done] and [a] is
    [.loc[ix_done]], so the indexes differ only when a label of [ix_done]
    is carried by several pending rows, and there pandas refuses to
    reindex. *)
Definition concat_columns (a b : DataFrame) : exc + DataFrame :=
  if decide (index a = index b)
  then inr (zip_with (λ ra rb, (ra.1, ra.2 ++ rb.2)) a b)
  else inl InvalidIndexError.

(** ** Collaborators

    The options bundle, the VOCS, the evaluator and the generator are
    declared in modules that are not part of the sources at hand
    ([xopt.options], [xopt.vocs], [xopt.evaluator], [xopt.generator]). *)

(** [concurrent.futures.FIRST_COMPLETED] and [ALL_COMPLETED] *)
Inductive ReturnWhen := FIRST_COMPLETED | ALL_COMPLETED.

(** Modelled from the spec: the options bundle enumerates the
    asynchronous-vs-synchronous mode, the completion-wait timeout and the
    strict-failure mode; these are the attributes [base.py] reads. *)
Record XoptOptions := {
  asynch : bool;
  timeout : option Z;   (* seconds; [None] waits without bound *)
  strict : bool
}.

(** Modelled from the spec: the VOCS declares the variables, objectives
    and constraints of the problem; [base.py] only tests its presence. *)
Record VOCS := { variables : list string }.

(** Modelled from the spec: the evaluator exposes a concurrency capacity
    [max_workers], which the orchestrator uses to size each request. *)
Record Evaluator := { max_workers : Z }.

(** Modelled from the spec: the generator ([xopt.generator.Generator],
    absent from the sources) offers [generate(n)] and [add_data(rows)];
    [generate] has no effect the orchestrator can see beyond the rows it
    returns, which may depend on the data added so far; [add_data] takes in
    one more batch. [requests] is the trace of the arguments [generate] was
    called with, latest first. *)
Record Generator := {
  candidates : list DataFrame → Z → DataFrame;
  requests : list Z;
  batches : list DataFrame
}.

(** Modelled from the spec: [generate(n)] returns candidate rows and leaves
    the data of the generator as it is. *)
Definition Generator_generate (g : Generator) (n : Z) : DataFrame * Generator :=
  (candidates g (batches g) n,
   {| candidates := candidates g;
      requests := n :: requests g;
      batches := batches g |}).

(** Modelled from the spec: [add_data(rows)] incorporates the newly
    completed observations, error rows included. *)
Definition Generator_add_data (g : Generator) (new_data : DataFrame)
  : Generator :=
  {| candidates := candidates g;
     requests := requests g;
     batches := new_data :: batches g |}.

(** ** Futures

    The result of an evaluation is a dict of outputs, or an exception (an
    instance of [Exception], which is what [update_data] catches). *)
Inductive outcome :=
  | Returned (outputs : row)
  | Raised (e : exc).

Inductive Future :=
  | Running
  | Finished (o : outcome).

(** A handle is the position of its future in the pool. *)
Definition Future_state (pool : list Future) (h : nat) : Future :=
  default Running (pool !! h).

(** [future.done()] *)
Definition done (pool : list Future) (h : nat) : bool :=
  match Future_state pool h with
  | Finished _ => true
  | Running => false
  end.

(** A worker finishes the future [h] with outcome [o]; a future is
    resolved once. *)
Definition resolve (pool : list Future) (ho : nat * outcome) : list Future :=
  match pool !! ho.1 with
  | Some Running => <[ho.1 := Finished ho.2]> pool
  | _ => pool
  end.

(** ** The orchestrator and the interpreter state *)

Record Xopt := {
  _generator : option Generator;
  _evaluator : option Evaluator;
  _vocs : option VOCS;
  options : XoptOptions;
  _data : option DataFrame;
  _new_data : option DataFrame;
  _futures : dict Z nat;            (* unfinished futures *)
  _input_data : option DataFrame;   (* inputs of the unfinished futures *)
  _ix_last : Z;                     (* index of last sample generated *)
  _is_done : bool;
  n_unfinished_futures : Z;
  return_when : ReturnWhen
}.

Definition __init__ (generator : option Generator)
    (evaluator : option Evaluator) (vocs : option VOCS)
    (options : XoptOptions) : Xopt :=
  {| _generator := generator;
     _evaluator := evaluator;
     _vocs := vocs;
     options := options;
     _data := None;
     _new_data := None;
     _futures := [];
     _input_data := None;
     _ix_last := -1;
     _is_done := false;
     n_unfinished_futures := 0;
     return_when :=
       if asynch options then FIRST_COMPLETED else ALL_COMPLETED |}.

Definition set__generator (g : option Generator) (X : Xopt) : Xopt :=
  {| _generator := g; _evaluator := _evaluator X; _vocs := _vocs X;
     options := options X; _data := _data X; _new_data := _new_data X;
     _futures := _futures X; _input_data := _input_data X;
     _ix_last := _ix_last X; _is_done := _is_done X;
     n_unfinished_futures := n_unfinished_futures X;
     return_when := return_when X |}.

Definition set__data (d : option DataFrame) (X : Xopt) : Xopt :=
  {| _generator := _generator X; _evaluator := _evaluator X; _vocs := _vocs X;
     options := options X; _data := d; _new_data := _new_data X;
     _futures := _futures X; _input_data := _input_data X;
     _ix_last := _ix_last X; _is_done := _is_done X;
     n_unfinished_futures := n_unfinished_futures X;
     return_when := return_when X |}.

Definition set__new_data (d : option DataFrame) (X : Xopt) : Xopt :=
  {| _generator := _generator X; _evaluator := _evaluator X; _vocs := _vocs X;
     options := options X; _data := _data X; _new_data := d;
     _futures := _futures X; _input_data := _input_data X;
     _ix_last := _ix_last X; _is_done := _is_done X;
     n_unfinished_futures := n_unfinished_futures X;
     return_when := return_when X |}.

Definition set__futures (f : dict Z nat) (X : Xopt) : Xopt :=
  {| _generator := _generator X; _evaluator := _evaluator X; _vocs := _vocs X;
     options := options X; _data := _data X; _new_data := _new_data X;
     _futures := f; _input_data := _input_data X;
     _ix_last := _ix_last X; _is_done := _is_done X;
     n_unfinished_futures := n_unfinished_futures X;
     return_when := return_when X |}.

Definition set__input_data (d : option DataFrame) (X : Xopt) : Xopt :=
  {| _generator := _generator X; _evaluator := _evaluator X; _vocs := _vocs X;
     options := options X; _data := _data X; _new_data := _new_data X;
     _futures := _futures X; _input_data := d;
     _ix_last := _ix_last X; _is_done := _is_done X;
     n_unfinished_futures := n_unfinished_futures X;
     return_when := return_when X |}.

Definition set__ix_last (i : Z) (X : Xopt) : Xopt :=
  {| _generator := _generator X; _evaluator := _evaluator X; _vocs := _vocs X;
     options := options X; _data := _data X; _new_data := _new_data X;
     _futures := _futures X; _input_data := _input_data X;
     _ix_last := i; _is_done := _is_done X;
     n_unfinished_futures := n_unfinished_futures X;
     return_when := return_when X |}.

Definition set_n_unfinished_futures (n : Z) (X : Xopt) : Xopt :=
  {| _generator := _generator X; _evaluator := _evaluator X; _vocs := _vocs X;
     options := options X; _data := _data X; _new_data := _new_data X;
     _futures := _futures X; _input_data := _input_data X;
     _ix_last := _ix_last X; _is_done := _is_done X;
     n_unfinished_futures := n;
     return_when := return_when X |}.

(** The interpreter state: the orchestrator object, the DataFrame objects
    callers hold references to, and the futures of the evaluator's
    executor. The frames an [Xopt] attribute owns alone ([_data],
    [_input_data], [_new_data] are fresh results of [pd.concat]) are kept
    by value in the record. *)
Record PyState := {
  self : Xopt;
  frames : list DataFrame;
  pool : list Future
}.

Definition with_self (X : Xopt) (s : PyState) : PyState :=
  {| self := X; frames := frames s; pool := pool s |}.
Definition with_frames (fr : list DataFrame) (s : PyState) : PyState :=
  {| self := self s; frames := fr; pool := pool s |}.
Definition with_pool (p : list Future) (s : PyState) : PyState :=
  {| self := self s; frames := frames s; pool := p |}.

(** ** The monad of methods *)

Inductive Res (A : Type) :=
  | Ok (a : A)        (* the call returned *)
  | Raise (e : exc)   (* the call raised *)
  | Hang.             (* the call blocks for ever *)
Arguments Ok {A} a.
Arguments Raise {A} e.
Arguments Hang {A}.

Definition M (A : Type) : Type := PyState → Res A * PyState.

#[global] Instance M_ret : MRet M := λ A a s, (Ok a, s).

#[global] Instance M_bind : MBind M := λ A B k m s,
  match m s with
  | (Ok a, s') => k a s'
  | (Raise e, s') => (Raise e, s')
  | (Hang, s') => (Hang, s')
  end.

Definition raise {A} (e : exc) : M A := λ s, (Raise e, s).
Definition hang {A} : M A := λ s, (Hang, s).

(** [try: m except Exception as e: handler e] *)
Definition try_except {A} (m : M A) (handler : exc → M A) : M A := λ s,
  match m s with
  | (Raise e, s') => handler e s'
  | r => r
  end.

Definition lift {A} (r : exc + A) : M A :=
  match r with
  | inl e => raise e
  | inr a => mret a
  end.

Definition get_state : M PyState := λ s, (Ok s, s).
Definition get_self : M Xopt := λ s, (Ok (self s), s).
Definition modify_self (f : Xopt → Xopt) : M unit :=
  λ s, (Ok tt, with_self (f (self s)) s).

(** Attribute access on an object that may be [None] *)
Definition attr_of {A} (o : option A) (attr : string) : M A :=
  match o with
  | Some a => mret a
  | None => raise (NoneType_has_no attr)
  end.

(** *** The store of DataFrame objects *)

Definition new_frame (df : DataFrame) : M nat :=
  λ s, (Ok (length (frames s)), with_frames (frames s ++ [df]) s).

Definition read_frame (r : nat) : M DataFrame := λ s,
  match frames s !! r with
  | Some df => (Ok df, s)
  | None => (Raise ReferenceError, s)
  end.

Definition write_frame (r : nat) (df : DataFrame) : M unit :=
  λ s, (Ok tt, with_frames (<[r := df]> (frames s)) s).

(** [pd.DataFrame(input_data, copy=True)]: a new object with a copy of
    the data *)
Definition DataFrame_copy (r : nat) : M nat :=
  df ← read_frame r; new_frame df.

(** [frame.index = labels]: mutates the object [r] *)
Definition frame_set_index (r : nat) (labels : list Z) : M unit :=
  df ← read_frame r; write_frame r (set_index labels df).

(** *** Futures *)

(** [future.result()] *)
Definition Future_result (h : nat) : M row := λ s,
  match Future_state (pool s) h with
  | Finished (Returned outputs) => (Ok outputs, s)
  | Finished (Raised e) => (Raise e, s)
  | Running => (Hang, s)
  end.

(** [future.exception()] *)
Definition Future_exception (h : nat) : M (option exc) := λ s,
  match Future_state (pool s) h with
  | Finished (Returned _) => (Ok None, s)
  | Finished (Raised e) => (Ok (Some e), s)
  | Running => (Hang, s)
  end.

(** Modelled from the spec: the executor of the evaluator, absent from the
    sources, starts one new future per submission. How and when the work
    is done is its concern: the future starts [Running] and is resolved by
    [resolve]. *)
Definition executor_submit : M nat :=
  λ s, (Ok (length (pool s)), with_pool (pool s ++ [Running]) s).

(** Modelled from the spec: [Evaluator.submit_data]
    ([xopt.evaluator.Evaluator], absent from the sources) is given a batch
    of input rows and returns a mapping from the caller-provided row index
    to a handle, one new future per row. *)
Fixpoint submit_rows (rows : DataFrame) (futures : dict Z nat)
  : M (dict Z nat) :=
  match rows with
  | [] => mret futures
  | (ix, _) :: rest =>
      future ← executor_submit;
      submit_rows rest (dict_set ix future futures)
  end.

(** Modelled from the spec: [evaluator.submit_data(input_data)], on the
    frame object it is passed. *)
Definition Evaluator_submit_data (ev : Evaluator) (input_data : nat)
  : M (dict Z nat) :=
  df ← read_frame input_data; submit_rows df [].

(** *** [concurrent.futures.wait]

    The call blocks while workers resolve futures; what happens during one
    call is an event chosen by the environment. *)
Record WaitEvent := {
  (** the futures resolved while [wait] blocks, in order of completion *)
  arrivals : list (nat * outcome);
  (** the order in which the returned set of finished futures iterates
      (a Python [set] of objects has no order of its own) *)
  set_order : list nat;
  (** the futures resolved after [wait] has returned and before
      [update_data] tests [done()] *)
  stragglers : list (nat * outcome)
}.

(** The members of the set [fs], as the order [order] lists them; members
    that [order] does not mention come last. *)
Definition set_iter (order fs : list nat) : list nat :=
  remove_dups (filter (λ f, f ∈ fs) order) ++ filter (λ f, f ∉ order) fs.

(** [wait(fs, timeout, return_when)] returns the sets of finished and of
    unfinished futures once the condition [return_when] holds, or when the
    timeout expires; without a timeout it blocks until the condition holds. *)
Definition wait_satisfied (return_when : ReturnWhen)
    (finished fs : list nat) : bool :=
  match return_when with
  | FIRST_COMPLETED =>
      bool_decide (finished ≠ []) || bool_decide (length finished = length fs)
  | ALL_COMPLETED => bool_decide (length finished = length fs)
  end.

Definition wait (fs : list nat) (timeout : option Z)
    (return_when : ReturnWhen) (w : WaitEvent) : M (list nat * list nat) :=
  λ s,
    let s' := with_pool (foldl resolve (pool s) (arrivals w)) s in
    let fs := remove_dups fs in
    let finished := filter (λ f, done (pool s') f = true) fs in
    let not_done := filter (λ f, done (pool s') f = false) fs in
    if wait_satisfied return_when finished fs || bool_decide (is_Some timeout)
    then (Ok (set_iter (set_order w) finished, not_done), s')
    else (Hang, s').

(** Workers go on between two statements of the orchestrator. *)
Definition workers (events : list (nat * outcome)) : M unit :=
  λ s, (Ok tt, with_pool (foldl resolve (pool s) events) s).

(** ** The methods of [Xopt] *)

(** [submit_data]: submit data to the evaluator and add the futures to the
    internal dictionary. [input_data] is a reference to the caller's
    frame. *)
Definition submit_data (input_data : nat) : M unit :=
  (* copy for reindexing *)
  input_data ← DataFrame_copy input_data;
  (* reindex input dataframe *)
  df ← read_frame input_data;
  X ← get_self;
  frame_set_index input_data
    (arange (_ix_last X + 1) (_ix_last X + 1 + len df));;
  df ← read_frame input_data;
  X ← get_self;
  modify_self (set__ix_last (_ix_last X + len df));;
  df ← read_frame input_data;
  X ← get_self;
  modify_self (set__input_data (Some (pd_concat (_input_data X) df)));;
  (* submit data to evaluator; futures are keyed on the index of the input *)
  X ← get_self;
  ev ← attr_of (_evaluator X) "submit_data";
  futures ← Evaluator_submit_data ev input_data;
  X ← get_self;
  modify_self (set__futures (dict_update (_futures X) futures)).

Definition futures_pop (ix : Z) : M nat :=
  X ← get_self;
  match dict_pop ix (_futures X) with
  | Some (future, rest) => modify_self (set__futures rest);; mret future
  | None => raise (KeyError "pop")
  end.

(** The loop of [update_data] over [ix_done] *)
Fixpoint collect_outputs (ix_done : list Z) : M (list row) :=
  match ix_done with
  | [] => mret []
  | ix :: rest =>
      future ← futures_pop ix;   (* remove from futures *)
      (* handle exceptions *)
      outputs ← try_except
        (outputs ← Future_result future;
         let outputs := dict_set "xopt_error" (VBool false) outputs in
         let outputs := dict_set "xopt_error_str" (VStr "") outputs in
         mret outputs)
        (λ e,
         let error_str := format_exc e in
         mret [("xopt_error", VBool true);
               ("xopt_error_str", VStr error_str)]);
      output_data ← collect_outputs rest;
      mret (outputs :: output_data)
  end.

Definition update_data : M unit :=
  (* get done indexes *)
  s ← get_state;
  let ix_done :=
    keys (filter (λ kv, done (pool s) kv.2 = true) (_futures (self s))) in
  (* collect done inputs *)
  input_data ← attr_of (_input_data (self s)) "loc";
  input_data_done ← lift (loc input_data ix_done);
  output_data ← collect_outputs ix_done;
  let output_data := DataFrame_of_records output_data ix_done in
  (* form completed evaluation *)
  new_data ← lift (concat_columns input_data_done output_data);
  (* add to internal dataframes *)
  X ← get_self;
  modify_self (set__data (Some (pd_concat (_data X) new_data)));;
  modify_self (set__new_data (Some new_data));;
  (* the generator can optionally use new data *)
  X ← get_self;
  g ← attr_of (_generator X) "add_data";
  modify_self (set__generator (Some (Generator_add_data g new_data)));;
  (* cleanup *)
  X ← get_self;
  input_data ← attr_of (_input_data X) "drop";
  remaining ← lift (drop_labels input_data ix_done);
  modify_self (set__input_data (Some remaining)).

(** The strict loop of [process_futures] *)
Fixpoint raise_first_exception (finished_futures : list nat) : M unit :=
  match finished_futures with
  | [] => mret tt
  | f :: rest =>
      e ← Future_exception f;
      match e with
      | Some e => raise e
      | None => raise_first_exception rest
      end
  end.

(** [process_futures]: wait for futures to finish, update the frames,
    return the number of unfinished futures. *)
Definition process_futures (w : WaitEvent) : M Z :=
  (* wait for futures to finish (depending on return_when) *)
  X ← get_self;
  r ← wait (values (_futures X)) (timeout (options X)) (return_when X) w;
  let finished_futures := r.1 in
  let unfinished_futures := r.2 in
  (* if strict, raise exception if any future raises an exception *)
  (if strict (options X)
   then raise_first_exception finished_futures
   else mret tt);;
  workers (stragglers w);;
  (* update dataframe with results from finished futures + generator data *)
  update_data;;
  mret (Z.of_nat (length unfinished_futures)).

(** [check_components]: make sure everything is in place to step. *)
Definition check_components : M unit :=
  X ← get_self;
  (if _generator X is None
   then raise (XoptError "Xopt generator not specified") else mret tt);;
  (if _evaluator X is None
   then raise (XoptError "Xopt evaluator not specified") else mret tt);;
  (if _vocs X is None
   then raise (XoptError "Xopt VOCS is not specified") else mret tt).

(** [step]: run one optimization cycle. *)
Definition step (w : WaitEvent) : M unit :=
  (* check internals *)
  check_components;;
  (* get number of candidates to generate *)
  X ← get_self;
  n_generate ←
    (if asynch (options X)
     then ev ← attr_of (_evaluator X) "max_workers";
          mret (max_workers ev - n_unfinished_futures X)
     else ev ← attr_of (_evaluator X) "max_workers";
          mret (max_workers ev));
  (* generate samples and submit to evaluator *)
  g ← attr_of (_generator X) "generate";
  let gen := Generator_generate g n_generate in
  modify_self (set__generator (Some gen.2));;
  new_samples ← new_frame gen.1;
  (* submit new samples to evaluator *)
  submit_data new_samples;;
  (* process futures after waiting for one or all to be completed;
     get number of uncompleted futures when done waiting *)
  n ← process_futures w;
  modify_self (set_n_unfinished_futures n).

(** [run]: step until done. Each step consumes one wait event of the
    script [ws]; the result tells whether the loop ended, [false] meaning
    that the script was used up first. *)
Fixpoint run (ws : list WaitEvent) : M bool :=
  match ws with
  | [] => X ← get_self; mret (_is_done X)
  | w :: ws' =>
      X ← get_self;
      if _is_done X then mret true else step w;; run ws'
  end.

(** ** Executions: calls of the public methods, interleaved with workers *)

Inductive call :=
  | call_submit_data (input_data : DataFrame)
      (* the caller builds a frame and passes it to [submit_data] *)
  | call_update_data
  | call_process_futures (w : WaitEvent)
  | call_step (w : WaitEvent)
  | worker_finishes (h : nat) (o : outcome).

(** The state after a call, whether it returned, raised (the caller may
    catch the exception and go on) or blocks. *)
Definition exec (s : PyState) (c : call) : PyState :=
  match c with
  | call_submit_data df => (r ← new_frame df; submit_data r) s
  | call_update_data => update_data s
  | call_process_futures w => (process_futures w;; mret tt) s
  | call_step w => step w s
  | worker_finishes h o => workers [(h, o)] s
  end.2.

Definition exec_all (s : PyState) (cs : list call) : PyState :=
  foldl exec s cs.

Definition start (generator : option Generator)
    (evaluator : option Evaluator) (vocs : option VOCS)
    (options : XoptOptions) : PyState :=
  {| self := __init__ generator evaluator vocs options;
     frames := [];
     pool := [] |}.

(** * Vocabulary of the verification *)

(** The labels [submit_data] assigns to the rows of [df]. *)
Definition new_labels (X : Xopt) (df : DataFrame) : list Z :=
  arange (_ix_last X + 1) (_ix_last X + 1 + len df).

(** The reindexed copy of [df] that [submit_data] makes, and the
    orchestrator after the reindexing and after the whole call. *)
Definition submitted_frame (X : Xopt) (df : DataFrame) : DataFrame :=
  set_index (new_labels X df) df.

Definition after_reindex (X : Xopt) (df : DataFrame) : Xopt :=
  set__input_data (Some (pd_concat (_input_data X) (submitted_frame X df)))
    (set__ix_last (_ix_last X + len df) X).

Definition after_submit (X : Xopt) (df : DataFrame) (p : list Future) : Xopt :=
  set__futures
    (dict_update (_futures X)
       (dict_update [] (zip (new_labels X df) (seq (length p) (length df)))))
    (after_reindex X df).

(** The rows that [loc] returns when every label is present. *)
Definition select (df : DataFrame) (labels : list Z) : DataFrame :=
  labels ≫= (λ ix, rows_at ix df).

(** The dict the [try]/[except] of [update_data] yields for an outcome. *)
Definition result_columns (o : outcome) : row :=
  match o with
  | Returned outputs =>
      dict_set "xopt_error_str" (VStr "")
        (dict_set "xopt_error" (VBool false) outputs)
  | Raised e =>
      [("xopt_error", VBool true); ("xopt_error_str", VStr (format_exc e))]
  end.

Definition outputs_of (p : list Future) (h : nat) : row :=
  match Future_state p h with
  | Finished o => result_columns o
  | Running => []
  end.

(** The entries of the dictionary whose future has, respectively has
    not, finished. *)
Definition finished (p : list Future) (d : dict Z nat) : dict Z nat :=
  filter (λ kv, done p kv.2 = true) d.

Definition unfinished (p : list Future) (d : dict Z nat) : dict Z nat :=
  filter (λ kv, done p kv.2 = false) d.

Definition ix_done_of (p : list Future) (X : Xopt) : list Z :=
  keys (finished p (_futures X)).

(** The batch [new_data] that [update_data] forms. *)
Definition merged_batch (p : list Future) (X : Xopt) (input : DataFrame)
  : DataFrame :=
  zip_with (λ ra rb, (ra.1, ra.2 ++ rb.2))
    (select input (ix_done_of p X))
    (DataFrame_of_records
       ((λ kv, outputs_of p kv.2) <$> finished p (_futures X))
       (ix_done_of p X)).

(** The orchestrator once [update_data] has stored the batch, and once it
    has handed it to the generator and cleaned up. *)
Definition after_merge (p : list Future) (X : Xopt) (input : DataFrame)
  : Xopt :=
  set__new_data (Some (merged_batch p X input))
    (set__data (Some (pd_concat (_data X) (merged_batch p X input)))
       (set__futures (unfinished p (_futures X)) X)).

Definition after_update (p : list Future) (X : Xopt) (input : DataFrame)
    (g : Generator) : Xopt :=
  set__input_data (Some (filter (λ r, r.1 ∉ ix_done_of p X) input))
    (set__generator (Some (Generator_add_data g (merged_batch p X input)))
       (after_merge p X input)).

(** With no finished future [update_data] merges the empty batch. *)
Definition after_idle_merge (X : Xopt) : Xopt :=
  set__new_data (Some []) (set__data (Some (pd_concat (_data X) [])) X).

(** The pending-input table and the observation table; before the first
    submission, respectively the first merge, the attribute is [None] and
    the table has no row. *)
Definition pending (X : Xopt) : DataFrame := default [] (_input_data X).
Definition observations (X : Xopt) : DataFrame := default [] (_data X).

(** The bookkeeping invariant of a configured orchestrator. *)
Record consistent (X : Xopt) : Prop := {
  futures_pending : keys (_futures X) = index (pending X);
  indices_assigned :
    index (pending X) ++ index (observations X) ≡ₚ seqZ 0 (_ix_last X + 1);
  ix_last_lower : -1 ≤ _ix_last X;
  has_generator : is_Some (_generator X);
  has_evaluator : is_Some (_evaluator X);
  return_when_asynch :
    return_when X = if asynch (options X) then FIRST_COMPLETED
                    else ALL_COMPLETED
}.

(** The state in which [wait] returns, and the sets it returns. *)
Definition after_arrivals (w : WaitEvent) (s : PyState) : PyState :=
  with_pool (foldl resolve (pool s) (arrivals w)) s.

Definition waited_for (s : PyState) : list nat :=
  remove_dups (values (_futures (self s))).

Definition finished_at_return (w : WaitEvent) (s : PyState) : list nat :=
  filter (λ f, done (pool (after_arrivals w s)) f = true) (waited_for s).

Definition unfinished_at_return (w : WaitEvent) (s : PyState) : list nat :=
  filter (λ f, done (pool (after_arrivals w s)) f = false) (waited_for s).

Definition wait_returns (w : WaitEvent) (s : PyState) : bool :=
  wait_satisfied (return_when (self s)) (finished_at_return w s) (waited_for s)
  || bool_decide (is_Some (timeout (options (self s)))).

(** The state in which [update_data] runs. *)
Definition after_stragglers (w : WaitEvent) (s : PyState) : PyState :=
  with_pool (foldl resolve (pool (after_arrivals w s)) (stragglers w)) s.

(** The strict loop, on the set [wait] returned. *)
Definition strict_check (w : WaitEvent) (s : PyState) : M unit :=
  if strict (options (self s))
  then raise_first_exception (set_iter (set_order w) (finished_at_return w s))
  else mret tt.

(** The error [check_components] raises, if any. *)
Definition missing_component (X : Xopt) : option exc :=
  match _generator X, _evaluator X, _vocs X with
  | None, _, _ => Some (XoptError "Xopt generator not specified")
  | Some _, None, _ => Some (XoptError "Xopt evaluator not specified")
  | Some _, Some _, None => Some (XoptError "Xopt VOCS is not specified")
  | Some _, Some _, Some _ => None
  end.

(** The number of candidates [step] asks the generator for. *)
Definition n_generate (X : Xopt) (ev : Evaluator) : Z :=
  if asynch (options X)
  then max_workers ev - n_unfinished_futures X
  else max_workers ev.

(** The state in which [step] calls [process_futures]: the generator has
    been asked, its candidates are a new frame and have been submitted. *)
Definition before_wait (s : PyState) (g : Generator) (ev : Evaluator)
  : PyState :=
  let gen := Generator_generate g (n_generate (self s) ev) in
  let X := set__generator (Some gen.2) (self s) in
  {| self := after_submit X gen.1 (pool s);
     frames := (frames s ++ [gen.1]) ++ [submitted_frame X gen.1];
     pool := pool s ++ replicate (length gen.1) Running |}.


(** The future whose exception the strict loop raises: the first one, in
    the order of iteration, that holds an exception. *)
Definition first_failure (p : list Future) (l : list nat) (f : nat) (e : exc)
  : Prop :=
  ∃ before after,
    l = before ++ f :: after ∧
    Future_state p f = Finished (Raised e) ∧
    Forall (λ f', ∃ outputs, Future_state p f' = Finished (Returned outputs))
      before.

(** No future of the dictionary has finished. *)
Definition none_finished (s : PyState) : Prop :=
  Forall (λ kv, done (pool s) kv.2 = false) (_futures (self s)).

(** The timeout expired: [wait] returned although its condition did not
    hold. *)
Definition timed_out (w : WaitEvent) (s : PyState) : Prop :=
  is_Some (timeout (options (self s))) ∧
  wait_satisfied (return_when (self s)) (finished_at_return w s) (waited_for s)
    = false.

(** ** A scenario

    Two workers; the generator proposes rows with one variable [x]; row 0
    evaluates to [y = 1] and row 1 raises. *)

Definition gen0 : Generator :=
  {| candidates := λ _ n, (λ i, (i, [("x", VNum i)])) <$> seqZ 0 n;
     requests := [];
     batches := [] |}.

Definition eval0 : Evaluator := {| max_workers := 2 |}.

Definition vocs0 : VOCS := {| variables := ["x"] |}.

Definition sync_options : XoptOptions :=
  {| asynch := false; timeout := None; strict := false |}.

Definition asynch_options : XoptOptions :=
  {| asynch := true; timeout := None; strict := false |}.

Definition strict_options : XoptOptions :=
  {| asynch := false; timeout := None; strict := true |}.

Definition bad_input : exc :=
  {| exc_class := "ValueError"; exc_msg := "bad input" |}.

Definition two_rows : DataFrame :=
  [(7, [("x", VNum 10)]); (7, [("x", VNum 20)])].

Definition first_returns_second_raises : WaitEvent :=
  {| arrivals := [(0%nat, Returned [("y", VNum 1)]); (1%nat, Raised bad_input)];
     set_order := [];
     stragglers := [] |}.

Definition first_returns : WaitEvent :=
  {| arrivals := [(0%nat, Returned [("y", VNum 1)])];
     set_order := [];
     stragglers := [] |}.

Definition second_returns : WaitEvent :=
  {| arrivals := [(1%nat, Returned [("y", VNum 4)])];
     set_order := [];
     stragglers := [] |}.

Definition sync_start : PyState :=
  start (Some gen0) (Some eval0) (Some vocs0) sync_options.

Definition strict_start : PyState :=
  start (Some gen0) (Some eval0) (Some vocs0) strict_options.

(** The strict orchestrator when its first [step] starts to wait. *)
Definition strict_submitted : PyState := before_wait strict_start gen0 eval0.

(** An asynchronous orchestrator after one step in which row 0 finished
    and row 1 did not, and its generator then. *)
Definition asynch_stepped : PyState :=
  exec_all (start (Some gen0) (Some eval0) (Some vocs0) asynch_options)
    [call_step first_returns].

Definition gen1 : Generator := default gen0 (_generator (self asynch_stepped)).

(** A caller holding the frame [two_rows], and one that has submitted it. *)
Definition caller_with_frame : PyState := (new_frame two_rows sync_start).2.

Definition two_rows_pending : PyState :=
  exec sync_start (call_submit_data two_rows).

Definition no_generator : PyState :=
  start None (Some eval0) (Some vocs0) sync_options.

(** ** Further vocabulary *)



(** The attributes that no method assigns. *)
Definition same_setup (X X' : Xopt) : Prop :=
  _evaluator X' = _evaluator X ∧
  _vocs X' = _vocs X ∧
  options X' = options X ∧
  return_when X' = return_when X ∧
  _is_done X' = _is_done X.

(** A method keeps the relation [R] between the orchestrator before and
    after the call, whether it returns, raises or blocks. *)
Definition keeps (R : Xopt → Xopt → Prop) {A} (m : M A) : Prop :=
  ∀ s, R (self s) (self (m s).2).

(** The handles of the dictionary are distinct futures of the pool. *)
Definition handles_allocated (X : Xopt) (p : list Future) : Prop :=
  NoDup (values (_futures X)) ∧
  Forall (λ h, (h < length p)%nat) (values (_futures X)).

(** A generator that returns as many candidates as it is asked for. *)
Definition returns_n_candidates (g : Generator) : Prop :=
  ∀ data n, length (candidates g data n) = Z.to_nat n.

(** What an asynchronous [run] keeps between two steps, for the capacity
    [ev] and the candidate function of [g0]. *)
Record within_capacity (g0 : Generator) (ev : Evaluator) (s : PyState)
  : Prop := {
  capacity_consistent : consistent (self s);
  capacity_handles : handles_allocated (self s) (pool s);
  capacity_asynch : asynch (options (self s)) = true;
  capacity_evaluator : _evaluator (self s) = Some ev;
  capacity_generator :
    ∃ g asked, _generator (self s) = Some g ∧
         candidates g = candidates g0 ∧
         requests g = asked ++ requests g0 ∧
         Forall (λ n, 0 ≤ n ≤ max_workers ev) asked;
  capacity_bound :
    Z.of_nat (length (_futures (self s))) ≤ n_unfinished_futures (self s)
      ≤ max_workers ev
}.

(** The last-index counter has not gone down. *)
Definition ix_last_le (X X' : Xopt) : Prop := _ix_last X ≤ _ix_last X'.

(** A synchronous orchestrator whose wait gives up after five seconds, and
    a wait during which no worker finishes. *)
Definition timeout_options : XoptOptions :=
  {| asynch := false; timeout := Some 5; strict := false |}.

Definition nothing_finishes : WaitEvent :=
  {| arrivals := []; set_order := []; stragglers := [] |}.

(** * The helpers of the Bayesian generators ([generators/bayesian/utils.py])

    Floats that are numbers are rationals, compared exactly; a cell of a
    frame may also be NaN. Infinities and the rounding of arithmetic play
    no part in the functions modelled here, which only compare, select and
    assign. *)
Module utils.

Definition IndexError (msg : string) : exc :=
  {| exc_class := "IndexError"; exc_msg := msg |}.

(** ** [rectilinear_domain_union] *)

(** A two-dimensional [torch.Tensor] of numbers, row by row; all its rows
    have the same length. *)
Abbreviation Tensor := (list (list Q)).







(** ** [set_botorch_weights] *)

(** Modelled from the spec: the VOCS declares the objective directions;
    [set_botorch_weights] reads its attributes [objective_names] and
    [objectives], the direction of each objective. *)
Record VOCS := {
  objective_names : list string;
  objectives : dict string string
}.

(** [enumerate(l)] *)
Definition enumerate {A} (l : list A) : list (nat * A) :=
  zip (seq 0 (length l)) l.

(** The loop of [set_botorch_weights] over the enumerated names. [weights]
    is assigned in place: the result is the exception raised, if any, and
    the weights as the loop left them. *)
Fixpoint set_weights (items : list (nat * string))
    (objectives : dict string string) (weights : list Q)
  : option exc * list Q :=
  match items with
  | [] => (None, weights)
  | (idx, ele) :: rest =>
      match dict_get ele objectives with
      | None => (Some (KeyError ele), weights)
      | Some direction =>
          if decide (direction = "MINIMIZE") then
            if decide (idx < length weights)%nat
            then set_weights rest objectives (<[idx := (-1)%Q]> weights)
            else (Some (IndexError "index out of range"), weights)
          else if decide (direction = "MAXIMIZE") then
            if decide (idx < length weights)%nat
            then set_weights rest objectives (<[idx := 1%Q]> weights)
            else (Some (IndexError "index out of range"), weights)
          else set_weights rest objectives weights
      end
  end.

Definition set_botorch_weights (weights : list Q) (vocs : VOCS)
  : option exc * list Q :=
  set_weights (enumerate (objective_names vocs)) (objectives vocs) weights.

(** The weight of the objective [ele], where [w] is the weight the entry
    had. *)
Definition botorch_weight (objectives : dict string string) (ele : string)
    (w : Q) : Q :=
  match dict_get ele objectives with
  | Some direction =>
      if decide (direction = "MINIMIZE") then (-1)%Q
      else if decide (direction = "MAXIMIZE") then 1%Q
      else w
  | None => w
  end.

(** ** [get_training_data] *)

(** A cell of a numeric frame: a number, or NaN ([None]). *)
Abbreviation cell := (option Q).

(** A [pandas.DataFrame] of floats: its column names, which are distinct,
    and its rows, each with one cell per column. The index plays no part
    in [get_training_data], whose masks are built from the frame they
    select from. *)
Record DataFrame := {
  columns : list string;
  rows : list (list cell)
}.

Definition well_formed (data : DataFrame) : Prop :=
  Forall (λ r, length r = length (columns data)) (rows data).

(** The position of the column [name] *)
Fixpoint column_position (name : string) (columns : list string)
  : option nat :=
  match columns with
  | [] => None
  | c :: rest =>
      if decide (name = c) then Some 0%nat
      else S <$> column_position name rest
  end.

Definition cell_at (r : list cell) (pos : nat) : cell := mjoin (r !! pos).








(** The inputs and the outcome of a row, and whether none of them is
    NaN. *)
Definition inputs_of (data : DataFrame) (input_names : list string)
    (r : list cell) : list cell :=
  (λ name, cell_at r (default 0%nat (column_position name (columns data))))
    <$> input_names.

Definition outcome_of (data : DataFrame) (outcome_name : string)
    (r : list cell) : cell :=
  cell_at r (default 0%nat (column_position outcome_name (columns data))).

Definition complete (data : DataFrame) (input_names : list string)
    (outcome_name : string) (r : list cell) : Prop :=
  Forall is_Some (inputs_of data input_names r) ∧
  is_Some (outcome_of data outcome_name r).

#[global] Instance complete_dec data input_names outcome_name r :
  Decision (complete data input_names outcome_name r).
Proof. unfold complete. apply _. Defined.

(** ** Examples of inputs *)


Definition two_objectives : VOCS :=
  {| objective_names := ["y1"; "y2"];
     objectives := [("y1", "MINIMIZE"); ("y2", "MAXIMIZE")] |}.


End utils.

(** * Lemmas *)

(** ** Dictionaries *)

Section dict_facts.
Context {K V : Type} `{EqDecision K}.
Implicit Types (d : dict K V) (k : K) (v : V).

Lemma dict_set_fresh k v d : k ∉ keys d → dict_set k v d = d ++ [(k, v)].
Proof.
  induction d as [|[k' v'] d IH]; simpl; [done|].
  intros Hk. apply not_elem_of_cons in Hk as [Hne Hk].
  case_decide; [done|]. by rewrite IH.
Qed.

Lemma dict_update_fresh d d' :
  NoDup (keys d') → (∀ k, k ∈ keys d' → k ∉ keys d) →
  dict_update d d' = d ++ d'.
Proof.
  unfold dict_update. revert d.
  induction d' as [|[k v] d' IH]; intros d Hnd Hfresh; simpl.
  - by rewrite app_nil_r.
  - apply NoDup_cons in Hnd as [Hk Hnd].
    rewrite dict_set_fresh by (apply Hfresh; left).
    rewrite IH; [by rewrite <- app_assoc|done|].
    intros k' Hk'. unfold keys. rewrite fmap_app, elem_of_app. simpl.
    intros [?|?%list_elem_of_singleton]; [|by subst].
    eapply Hfresh; [by right|done].
Qed.

Lemma dict_pop_app_head (pre : dict K V) k v d :
  k ∉ keys pre → dict_pop k (pre ++ (k, v) :: d) = Some (v, pre ++ d).
Proof.
  induction pre as [|[k' v'] pre IH]; simpl; intros Hk.
  - by case_decide.
  - apply not_elem_of_cons in Hk as [Hne Hk].
    case_decide; [done|]. by rewrite IH.
Qed.


End dict_facts.

(** ** Closed forms of the methods *)

Ltac munfold := unfold mbind, M_bind, mret, M_ret, raise, hang, lift,
  get_state, get_self, modify_self, attr_of in *.

Lemma submit_rows_spec rows futures s :
  submit_rows rows futures s =
    (Ok (dict_update futures
           (zip (index rows) (seq (length (pool s)) (length rows)))),
     with_pool (pool s ++ replicate (length rows) Running) s).
Proof.
  revert futures s. induction rows as [|[ix r] rows IH]; intros futures s.
  - simpl. munfold. unfold with_pool. rewrite app_nil_r. by destruct s.
  - simpl. munfold. unfold executor_submit at 1. rewrite IH. simpl.
    rewrite length_app. simpl. rewrite Nat.add_1_r.
    unfold with_pool. simpl. by rewrite <- app_assoc.
Qed.

Lemma length_new_labels X df : length (new_labels X df) = length df.
Proof.
  unfold new_labels, arange, len. rewrite length_seqZ. lia.
Qed.

Lemma len_set_index labels df :
  length labels = length df → len (set_index labels df) = len df.
Proof.
  intros Hl. unfold len, set_index. rewrite length_zip_with, length_fmap. lia.
Qed.

Lemma index_set_index labels df :
  length labels = length df → index (set_index labels df) = labels.
Proof.
  intros Hl. unfold index, set_index. apply fst_zip.
  rewrite length_fmap. lia.
Qed.

Lemma submit_data_spec r df s :
  frames s !! r = Some df →
  submit_data r s =
    match _evaluator (self s) with
    | Some _ =>
        (Ok tt,
         {| self := after_submit (self s) df (pool s);
            frames := frames s ++ [submitted_frame (self s) df];
            pool := pool s ++ replicate (length df) Running |})
    | None =>
        (Raise (NoneType_has_no "submit_data"),
         {| self := after_reindex (self s) df;
            frames := frames s ++ [submitted_frame (self s) df];
            pool := pool s |})
    end.
Proof.
  intros Hr. destruct s as [X fr p]. simpl in *.
  unfold submit_data, DataFrame_copy, frame_set_index, Evaluator_submit_data.
  munfold. unfold read_frame, new_frame, write_frame. simpl. rewrite Hr. simpl.
  assert (Hl : ∀ x : DataFrame, (fr ++ [x]) !! length fr = Some x).
  { intros x. rewrite lookup_app_r by lia. by rewrite Nat.sub_diag. }
  assert (Hi : ∀ x y : DataFrame, <[length fr:=y]> (fr ++ [x]) = fr ++ [y]).
  { intros x y. rewrite insert_app_r_alt by lia. by rewrite Nat.sub_diag. }
  unfold with_frames, with_self, with_pool.
  repeat (first [rewrite Hl | rewrite Hi]; simpl).
  fold (new_labels X df). fold (submitted_frame X df).
  assert (len (submitted_frame X df) = len df) as Hlen
    by (apply len_set_index, length_new_labels).
  rewrite Hlen.
  destruct (_evaluator X) eqn:Hev; simpl.
  - repeat (first [rewrite Hl | rewrite Hi]; simpl).
    rewrite submit_rows_spec. simpl.
    assert (length (submitted_frame X df) = length df) as ->.
    { unfold len in Hlen. lia. }
    unfold submitted_frame at 1.
    rewrite index_set_index by apply length_new_labels.
    done.
  - done.
Qed.

(** ** Frames *)

Lemma filter_none {A} (P : A → Prop) `{∀ x, Decision (P x)} (l : list A) :
  (∀ x, x ∈ l → ¬ P x) → filter P l = [].
Proof.
  intros Hno. destruct (filter P l) as [|x l'] eqn:Hf; [done|].
  assert (x ∈ filter P l) as [HP Hin]%list_elem_of_filter
    by (rewrite Hf; left).
  by destruct (Hno x).
Qed.

Lemma rows_at_unique df ix r :
  NoDup (index df) → (ix, r) ∈ df → rows_at ix df = [(ix, r)].
Proof.
  unfold rows_at, index. induction df as [|[ix' r'] df IH]; intros Hnd Hin.
  - by apply elem_of_nil in Hin.
  - simpl in Hnd. apply NoDup_cons in Hnd as [Hfresh Hnd].
    apply elem_of_cons in Hin as [Heq|Hin].
    + inversion Heq; subst ix' r'. rewrite filter_cons_True by done.
      f_equal. apply filter_none. intros [ix'' r''] Hin' Hix.
      simpl in Hix. subst ix''. apply Hfresh.
      apply list_elem_of_fmap. by exists (ix, r'').
    + rewrite filter_cons_False; [by apply IH|].
      simpl. intros ->. apply Hfresh.
      apply list_elem_of_fmap. by exists (ix, r).
Qed.

Lemma rows_at_index df ix :
  ix ∈ index df → rows_at ix df ≠ [].
Proof.
  unfold index. intros ([ix' r] & Heq & Hin)%list_elem_of_fmap. simpl in Heq.
  subst ix'. intros Hnil.
  assert ((ix, r) ∈ rows_at ix df) as Hin'.
  { unfold rows_at. by apply list_elem_of_filter. }
  rewrite Hnil in Hin'. by apply elem_of_nil in Hin'.
Qed.

Lemma loc_select df labels :
  Forall (λ ix, ix ∈ index df) labels → loc df labels = inr (select df labels).
Proof.
  induction 1 as [|ix labels Hix _ IH]; [done|].
  simpl. rewrite IH. unfold select. simpl.
  destruct (rows_at ix df) eqn:Hrows; [|done].
  by apply rows_at_index in Hix.
Qed.

Lemma select_cons df ix labels :
  select df (ix :: labels) = rows_at ix df ++ select df labels.
Proof. done. Qed.

Lemma index_app (a b : DataFrame) : index (a ++ b) = index a ++ index b.
Proof. apply fmap_app. Qed.

Lemma index_select df labels :
  NoDup (index df) → Forall (λ ix, ix ∈ index df) labels →
  index (select df labels) = labels.
Proof.
  intros Hnd. induction 1 as [|ix labels Hix _ IH]; [done|].
  rewrite select_cons, index_app, IH.
  apply list_elem_of_fmap in Hix as ([ix' r] & Heq & Hin). simpl in Heq.
  subst ix'. by rewrite (rows_at_unique df ix r).
Qed.


Lemma index_filter_labels (df : DataFrame) (P : Z → Prop)
    `{∀ ix, Decision (P ix)} :
  index (filter (λ r, P r.1) df) = filter P (index df).
Proof.
  induction df as [|[ix r] df IH]; [done|].
  change (index ((ix, r) :: df)) with (ix :: index df).
  destruct (decide (P ix)).
  - rewrite !filter_cons_True by done.
    change (index ((ix, r) :: ?l)) with (ix :: index l). by rewrite IH.
  - by rewrite !filter_cons_False by done.
Qed.

(** ** The merge *)

Lemma collect_outputs_spec X fr p pre d :
  NoDup (keys (pre ++ d)) →
  collect_outputs (keys (finished p d))
    {| self := set__futures (pre ++ d) X; frames := fr; pool := p |} =
  (Ok ((λ kv, outputs_of p kv.2) <$> finished p d),
   {| self := set__futures (pre ++ unfinished p d) X;
      frames := fr; pool := p |}).
Proof.
  revert pre. induction d as [|[ix h] d IH]; intros pre Hnd.
  - done.
  - unfold finished, unfinished in *.
    destruct (done p h) eqn:Hdone.
    + rewrite filter_cons_True by done.
      rewrite filter_cons_False by (simpl; congruence).
      assert (ix ∉ keys pre) as Hfresh.
      { unfold keys in *. rewrite fmap_app in Hnd.
        apply NoDup_app in Hnd as (_ & Hdisj & _).
        intros Hin. apply (Hdisj ix Hin). left. }
      assert (NoDup (keys (pre ++ d))) as Hnd'.
      { unfold keys in *. rewrite fmap_app in *. simpl in Hnd.
        apply NoDup_app in Hnd as (Hpre & Hdisj & Hd).
        apply NoDup_cons in Hd as [_ Hd].
        apply NoDup_app. split_and!; [done| |done].
        intros k Hk Hk'. apply (Hdisj k Hk). by right. }
      specialize (IH pre Hnd').
      simpl. munfold. unfold futures_pop. munfold. simpl.
      rewrite dict_pop_app_head by done. simpl.
      unfold try_except, Future_result. simpl.
      unfold done in Hdone. unfold outputs_of at 1. simpl.
      destruct (Future_state p h) as [|[outputs|e]]; [done| |]; simpl.
      * unfold with_self. simpl.
        change (set__futures (pre ++ d)
                  (set__futures (pre ++ (ix, h) :: d) X))
          with (set__futures (pre ++ d) X).
        by rewrite IH.
      * unfold with_self. simpl.
        change (set__futures (pre ++ d)
                  (set__futures (pre ++ (ix, h) :: d) X))
          with (set__futures (pre ++ d) X).
        by rewrite IH.
    + rewrite filter_cons_False by (simpl; congruence).
      rewrite filter_cons_True by done.
      specialize (IH (pre ++ [(ix, h)])).
      rewrite <- !app_assoc in IH. simpl in IH. by apply IH.
Qed.

Lemma keys_finished_subset p (d : dict Z nat) :
  Forall (λ ix, ix ∈ keys d) (keys (finished p d)).
Proof.
  apply Forall_forall. intros ix ([ix' h] & -> & Hin)%list_elem_of_fmap.
  apply list_elem_of_filter in Hin as [_ Hin].
  apply list_elem_of_fmap. by exists (ix', h).
Qed.

Lemma set__futures_id X : set__futures (_futures X) X = X.
Proof. by destruct X. Qed.

Lemma update_data_spec s input :
  _input_data (self s) = Some input →
  NoDup (index input) →
  keys (_futures (self s)) = index input →
  update_data s =
    match _generator (self s) with
    | Some g => (Ok tt, with_self (after_update (pool s) (self s) input g) s)
    | None =>
        (Raise (NoneType_has_no "add_data"),
         with_self (after_merge (pool s) (self s) input) s)
    end.
Proof.
  intros Hinput Hnd Hkeys. destruct s as [X fr p]. simpl in *.
  assert (Forall (λ ix, ix ∈ index input) (ix_done_of p X)) as Hsub.
  { unfold ix_done_of. rewrite <- Hkeys. apply keys_finished_subset. }
  unfold update_data. munfold. simpl. rewrite Hinput. simpl.
  fold (finished p (_futures X)). fold (ix_done_of p X).
  rewrite (loc_select _ _ Hsub). simpl.
  pose proof (collect_outputs_spec X fr p [] (_futures X)) as Hloop.
  simpl in Hloop. rewrite set__futures_id in Hloop.
  fold (ix_done_of p X) in Hloop.
  rewrite Hloop by (by rewrite Hkeys). clear Hloop.
  simpl. unfold concat_columns.
  rewrite decide_True; last first.
  { rewrite (index_select _ _ Hnd Hsub).
    unfold DataFrame_of_records, index. rewrite fst_zip; [done|].
    unfold ix_done_of, keys. by rewrite !length_fmap. }
  simpl. fold (merged_batch p X input). unfold with_self. simpl.
  destruct (_generator X) as [g|] eqn:Hg; simpl.
  - rewrite Hinput. simpl. unfold drop_labels.
    rewrite decide_True by done. simpl. done.
  - done.
Qed.

Lemma filter_all {A} (P : A → Prop) `{∀ x, Decision (P x)} (l : list A) :
  (∀ x, x ∈ l → P x) → filter P l = l.
Proof.
  induction l as [|x l IH]; intros Hall; [done|].
  rewrite filter_cons_True by (apply Hall; left).
  f_equal. apply IH. intros y Hy. apply Hall. by right.
Qed.

Lemma update_data_idle s :
  finished (pool s) (_futures (self s)) = [] →
  update_data s =
    match _input_data (self s), _generator (self s) with
    | None, _ => (Raise (NoneType_has_no "loc"), s)
    | Some _, None =>
        (Raise (NoneType_has_no "add_data"),
         with_self (after_idle_merge (self s)) s)
    | Some input, Some g =>
        (Ok tt,
         with_self
           (set__input_data (Some input)
              (set__generator (Some (Generator_add_data g []))
                 (after_idle_merge (self s)))) s)
    end.
Proof.
  intros Hidle. destruct s as [X fr p]. simpl in *.
  unfold update_data. munfold. simpl.
  fold (finished p (_futures X)). rewrite Hidle. simpl.
  destruct (_input_data X) as [input|] eqn:Hinput; simpl; [|done].
  unfold with_self. simpl.
  destruct (_generator X) as [g|] eqn:Hg; simpl; [|done].
  rewrite Hinput. simpl.
  rewrite filter_all; [done|]. intros r _. apply not_elem_of_nil.
Qed.

(** ** The bookkeeping invariant *)

Lemma consistent_init g e vocs opts :
  consistent (__init__ (Some g) (Some e) vocs opts).
Proof. split; simpl; try done; by eexists. Qed.

Lemma consistent_NoDup X : consistent X → NoDup (index (pending X)).
Proof.
  intros [_ Hperm _ _ _ _].
  assert (NoDup (index (pending X) ++ index (observations X))) as Hnd.
  { rewrite Hperm. apply NoDup_seqZ. }
  by apply NoDup_app in Hnd as (? & _ & _).
Qed.

Lemma pending_after_reindex X df :
  pending (after_reindex X df) = pending X ++ submitted_frame X df.
Proof. unfold pending. simpl. by destruct (_input_data X). Qed.

Lemma index_submitted_frame X df :
  index (submitted_frame X df) = new_labels X df.
Proof. apply index_set_index, length_new_labels. Qed.

Lemma new_labels_seqZ X df :
  new_labels X df = seqZ (_ix_last X + 1) (len df).
Proof. unfold new_labels, arange. f_equal. lia. Qed.

Lemma consistent_after_submit X df p :
  consistent X → consistent (after_submit X df p).
Proof.
  intros HX. pose proof (consistent_NoDup X HX) as Hnd.
  destruct HX as [Hkeys Hperm Hlow Hg He Hrw].
  assert (∀ ix, ix ∈ new_labels X df → ix ∉ keys (_futures X)) as Hfresh.
  { intros ix Hix Hin. rewrite new_labels_seqZ in Hix.
    apply elem_of_seqZ in Hix.
    assert (ix ∈ seqZ 0 (_ix_last X + 1)) as Hold.
    { rewrite <- Hperm. apply elem_of_app. left. by rewrite <- Hkeys. }
    apply elem_of_seqZ in Hold. lia. }
  assert (dict_update (V := nat) []
            (zip (new_labels X df) (seq (length p) (length df)))
          = zip (new_labels X df) (seq (length p) (length df))) as Hnew.
  { rewrite dict_update_fresh; [done| |].
    - unfold keys. rewrite fst_zip.
      + rewrite new_labels_seqZ. apply NoDup_seqZ.
      + rewrite length_new_labels, length_seq. lia.
    - intros k _. apply not_elem_of_nil. }
  assert (keys (zip (new_labels X df) (seq (length p) (length df)))
          = new_labels X df) as Hk.
  { unfold keys. apply fst_zip. rewrite length_new_labels, length_seq. lia. }
  assert (pending (after_submit X df p)
          = pending X ++ submitted_frame X df) as Hpend
    by apply pending_after_reindex.
  split; try done.
  - rewrite Hpend.
    change (_futures (after_submit X df p))
      with (dict_update (_futures X)
              (dict_update []
                 (zip (new_labels X df) (seq (length p) (length df))))).
    rewrite Hnew, dict_update_fresh.
    + unfold keys in *. rewrite fmap_app, index_app, Hkeys.
      by rewrite Hk, index_submitted_frame.
    + rewrite Hk, new_labels_seqZ. apply NoDup_seqZ.
    + intros k. rewrite Hk. apply Hfresh.
  - rewrite Hpend.
    change (observations (after_submit X df p)) with (observations X).
    change (_ix_last (after_submit X df p)) with (_ix_last X + len df).
    rewrite index_app, index_submitted_frame, new_labels_seqZ.
    replace (_ix_last X + len df + 1) with ((_ix_last X + 1) + len df) by lia.
    rewrite seqZ_app by (unfold len; lia).
    rewrite <- Hperm. rewrite Z.add_0_l.
    rewrite <- !app_assoc. apply Permutation_app_head, Permutation_app_comm.
  - change (_ix_last (after_submit X df p)) with (_ix_last X + len df).
    unfold len. lia.
Qed.

Lemma filter_ext_elem {A} (P Q : A → Prop) `{∀ x, Decision (P x)}
    `{∀ x, Decision (Q x)} (l : list A) :
  (∀ x, x ∈ l → P x ↔ Q x) → filter P l = filter Q l.
Proof.
  induction l as [|x l IH]; intros Hext; [done|].
  assert (filter P l = filter Q l) as Hl.
  { apply IH. intros y Hy. apply Hext. by right. }
  destruct (decide (P x)) as [HP|HP].
  - rewrite !filter_cons_True; [by rewrite Hl| |done].
    apply Hext; [left|done].
  - rewrite !filter_cons_False; [done| |done].
    intros HQ. apply HP, Hext; [left|done].
Qed.

Lemma keys_cons {V} (k : Z) (v : V) (d : dict Z V) :
  keys ((k, v) :: d) = k :: keys d.
Proof. done. Qed.

Lemma keys_unfinished p (d : dict Z nat) :
  NoDup (keys d) →
  filter (λ k, k ∉ keys (finished p d)) (keys d) = keys (unfinished p d).
Proof.
  induction d as [|[k h] d IH]; intros Hnd; [done|].
  rewrite keys_cons in Hnd. apply NoDup_cons in Hnd as [Hk Hnd].
  specialize (IH Hnd).
  assert (k ∉ keys (finished p d)) as Hk'.
  { intros Hin. apply Hk.
    pose proof (keys_finished_subset p d) as Hsub.
    rewrite Forall_forall in Hsub. by apply Hsub. }
  unfold finished, unfinished in *. rewrite keys_cons.
  destruct (done p h) eqn:Hdone.
  - rewrite (filter_cons_True _ (k, h)) by done.
    rewrite (filter_cons_False _ (k, h)) by (simpl; congruence).
    rewrite keys_cons. rewrite filter_cons_False by (intros Hn; apply Hn; left).
    rewrite <- IH. apply filter_ext_elem. intros k' Hin.
    rewrite not_elem_of_cons. split; [by intros [_ ?]|].
    intros ?. split; [|done]. by intros ->.
  - rewrite (filter_cons_False _ (k, h)) by (simpl; congruence).
    rewrite (filter_cons_True _ (k, h)) by done.
    rewrite keys_cons. rewrite filter_cons_True by done. by rewrite IH.
Qed.

Lemma keys_finished_unfinished p (d : dict Z nat) :
  keys (unfinished p d) ++ keys (finished p d) ≡ₚ keys d.
Proof.
  unfold keys. rewrite <- fmap_app. apply fmap_Permutation.
  rewrite Permutation_app_comm. unfold finished, unfinished.
  rewrite <- (filter_app_complement (λ kv, done p kv.2 = true) d) at 3.
  apply Permutation_app_head.
  assert (filter (λ kv : Z * nat, done p kv.2 = false) d
          = filter (λ kv, ¬ done p kv.2 = true) d) as ->; [|done].
  apply list_filter_iff. intros [k h]. simpl. by destruct (done p h).
Qed.

Lemma index_join (a b : DataFrame) :
  length a = length b →
  index (zip_with (λ ra rb, (ra.1, ra.2 ++ rb.2)) a b) = index a.
Proof.
  revert b. induction a as [|ra a IH]; intros [|rb b] Hlen; try done.
  simpl in *. unfold index in *. simpl. f_equal. apply IH. lia.
Qed.

Lemma length_finished_outputs p (d : dict Z nat) :
  length (DataFrame_of_records ((λ kv, outputs_of p kv.2) <$> finished p d)
            (keys (finished p d))) = length (keys (finished p d)).
Proof.
  unfold DataFrame_of_records, keys.
  rewrite length_zip_with, !length_fmap. lia.
Qed.

Lemma index_merged_batch p X input :
  NoDup (index input) → keys (_futures X) = index input →
  index (merged_batch p X input) = ix_done_of p X.
Proof.
  intros Hnd Hkeys.
  assert (Forall (λ ix, ix ∈ index input) (ix_done_of p X)) as Hsub.
  { unfold ix_done_of. rewrite <- Hkeys. apply keys_finished_subset. }
  unfold merged_batch. rewrite index_join.
  - by apply index_select.
  - unfold ix_done_of. rewrite length_finished_outputs.
    rewrite <- (index_select input (keys (finished p (_futures X)))) at 2
      by done.
    unfold index. by rewrite length_fmap.
Qed.

Lemma consistent_after_update p X input g :
  consistent X → _input_data X = Some input →
  consistent (after_update p X input g).
Proof.
  intros HX Hinput. pose proof (consistent_NoDup X HX) as Hnd.
  destruct HX as [Hkeys Hperm Hlow Hg He Hrw].
  assert (pending X = input) as Hpend by (unfold pending; by rewrite Hinput).
  rewrite Hpend in *.
  assert (index (pending (after_update p X input g))
          = keys (unfinished p (_futures X))) as Hpend'.
  { change (pending (after_update p X input g))
      with (filter (λ r : Z * row, r.1 ∉ ix_done_of p X) input).
    pose proof (index_filter_labels input (λ ix, ix ∉ ix_done_of p X)) as Hf.
    simpl in Hf. rewrite Hf. clear Hf.
    rewrite <- Hkeys. apply keys_unfinished. by rewrite Hkeys. }
  split.
  - rewrite Hpend'. reflexivity.
  - rewrite Hpend'.
    change (observations (after_update p X input g))
      with (pd_concat (_data X) (merged_batch p X input)).
    change (_ix_last (after_update p X input g)) with (_ix_last X).
    rewrite <- Hperm.
    assert (index (pd_concat (_data X) (merged_batch p X input))
            = index (observations X) ++ ix_done_of p X) as ->.
    { unfold observations.
      destruct (_data X); simpl; rewrite ?index_app;
        by rewrite index_merged_batch. }
    rewrite <- Hkeys, <- (keys_finished_unfinished p (_futures X)).
    unfold ix_done_of. rewrite <- !app_assoc.
    apply Permutation_app_head, Permutation_app_comm.
  - done.
  - by eexists.
  - done.
  - done.
Qed.

(** ** The invariant along executions *)

Lemma submit_data_dangling r s :
  frames s !! r = None → submit_data r s = (Raise ReferenceError, s).
Proof.
  intros Hr. unfold submit_data, DataFrame_copy. munfold.
  unfold read_frame. by rewrite Hr.
Qed.

Lemma consistent_submit_data r s :
  consistent (self s) → consistent (self (submit_data r s).2).
Proof.
  intros HX. destruct (frames s !! r) as [df|] eqn:Hr.
  - rewrite (submit_data_spec r df s Hr).
    destruct (has_evaluator _ HX) as [ev Hev]. rewrite Hev. simpl.
    by apply consistent_after_submit.
  - by rewrite submit_data_dangling.
Qed.

Lemma update_data_no_input s :
  _input_data (self s) = None →
  update_data s = (Raise (NoneType_has_no "loc"), s).
Proof. intros Hinput. unfold update_data. munfold. by rewrite Hinput. Qed.

Lemma consistent_update_data s :
  consistent (self s) → consistent (self (update_data s).2).
Proof.
  intros HX. destruct (_input_data (self s)) as [input|] eqn:Hinput.
  - assert (pending (self s) = input) as Hpend
      by (unfold pending; by rewrite Hinput).
    rewrite (update_data_spec s input Hinput).
    + destruct (has_generator _ HX) as [g Hg]. rewrite Hg. simpl.
      by apply consistent_after_update.
    + rewrite <- Hpend. by apply consistent_NoDup.
    + rewrite <- Hpend. by apply futures_pending.
  - by rewrite update_data_no_input.
Qed.

(** On a consistent orchestrator [submit_data] returns, and so does
    [update_data] once something has been submitted. *)
Lemma submit_data_returns r s :
  consistent (self s) → is_Some (frames s !! r) → (submit_data r s).1 = Ok tt.
Proof.
  intros HX [df Hr]. rewrite (submit_data_spec r df s Hr).
  by destruct (has_evaluator _ HX) as [ev ->].
Qed.


Lemma raise_first_exception_state finished_at_return s :
  (raise_first_exception finished_at_return s).2 = s.
Proof.
  induction finished_at_return as [|f rest IH]; [done|].
  simpl. munfold. unfold Future_exception.
  destruct (Future_state (pool s) f) as [|[outputs|e]]; simpl; done.
Qed.

Lemma process_futures_unfold w s :
  process_futures w s =
    if wait_returns w s then
      match (strict_check w s (after_arrivals w s)).1 with
      | Ok _ =>
          match update_data (after_stragglers w s) with
          | (Ok _, s') => (Ok (Z.of_nat (length (unfinished_at_return w s))), s')
          | (Raise e, s') => (Raise e, s')
          | (Hang, s') => (Hang, s')
          end
      | Raise e => (Raise e, after_arrivals w s)
      | Hang => (Hang, after_arrivals w s)
      end
    else (Hang, after_arrivals w s).
Proof.
  unfold process_futures. munfold. unfold wait.
  unfold wait_returns, strict_check, unfinished_at_return, finished_at_return,
    after_stragglers, waited_for.
  change (pool (after_arrivals w s))
    with (foldl resolve (pool s) (arrivals w)).
  change (with_pool (foldl resolve (pool s) (arrivals w)) s)
    with (after_arrivals w s).
  destruct (_ || _); [|done]. cbn [fst snd].
  set (fin := set_iter _ _).
  pose proof (raise_first_exception_state fin (after_arrivals w s)) as Hst.
  destruct (strict (options (self s))).
  - destruct (raise_first_exception _ _) as [[[]|e|] s1]; simpl in *; subst s1;
      try done.
  - simpl. by destruct (update_data _) as [[[]|e|] s'].
Qed.

Lemma consistent_process_futures w s :
  consistent (self s) → consistent (self (process_futures w s).2).
Proof.
  intros HX. rewrite process_futures_unfold.
  destruct (wait_returns w s); [|done].
  destruct (strict_check w s (after_arrivals w s)).1; try done.
  pose proof (consistent_update_data (after_stragglers w s) HX) as Hup.
  by destruct (update_data (after_stragglers w s)) as [[[]|e|] s'].
Qed.

(** *** [step] *)

Lemma check_components_spec s :
  check_components s =
    match missing_component (self s) with
    | Some e => (Raise e, s)
    | None => (Ok tt, s)
    end.
Proof.
  unfold check_components, missing_component. munfold.
  by destruct (_generator (self s)), (_evaluator (self s)), (_vocs (self s)).
Qed.

Lemma step_unconfigured w s e :
  missing_component (self s) = Some e → step w s = (Raise e, s).
Proof.
  intros Hmiss. unfold step. unfold mbind at 1. unfold M_bind at 1.
  by rewrite check_components_spec, Hmiss.
Qed.

Lemma step_configured w s g ev vocs :
  _generator (self s) = Some g → _evaluator (self s) = Some ev →
  _vocs (self s) = Some vocs →
  step w s =
    match process_futures w (before_wait s g ev) with
    | (Ok n, s') =>
        (Ok tt, with_self (set_n_unfinished_futures n (self s')) s')
    | (Raise e, s') => (Raise e, s')
    | (Hang, s') => (Hang, s')
    end.
Proof.
  intros Hg Hev Hvocs.
  unfold step. unfold mbind at 1. unfold M_bind at 1.
  rewrite check_components_spec. unfold missing_component.
  rewrite Hg, Hev, Hvocs.
  assert (∀ X df (fr : list DataFrame) p,
    _evaluator X = Some ev →
    submit_data (length fr) {| self := X; frames := fr ++ [df]; pool := p |}
    = (Ok tt, {| self := after_submit X df p;
                 frames := (fr ++ [df]) ++ [submitted_frame X df];
                 pool := p ++ replicate (length df) Running |})) as Hsub.
  { intros X df fr p HevX. erewrite (submit_data_spec _ df); last first.
    { simpl. rewrite lookup_app_r by lia. by rewrite Nat.sub_diag. }
    simpl. by rewrite HevX. }
  unfold before_wait, n_generate.
  munfold. unfold new_frame. cbn [self frames pool with_self with_frames].
  rewrite Hev, Hg.
  destruct (asynch (options (self s))); simpl;
    unfold with_frames, with_self; simpl;
    (rewrite Hsub by done);
    by destruct (process_futures w _) as [[n|e|] s'].
Qed.

Lemma consistent_set__generator g X :
  consistent X → consistent (set__generator (Some g) X).
Proof. intros [? ? ? ? ? ?]. split; try done. Qed.

Lemma consistent_set_n_unfinished_futures n X :
  consistent X → consistent (set_n_unfinished_futures n X).
Proof. by intros [? ? ? ? ? ?]. Qed.

Lemma missing_component_None X :
  missing_component X = None →
  ∃ g ev vocs,
    _generator X = Some g ∧ _evaluator X = Some ev ∧ _vocs X = Some vocs.
Proof.
  unfold missing_component.
  destruct (_generator X) as [g|], (_evaluator X) as [ev|],
    (_vocs X) as [vocs|]; try done.
  intros _. by exists g, ev, vocs.
Qed.

Lemma consistent_step w s :
  consistent (self s) → consistent (self (step w s).2).
Proof.
  intros HX. destruct (missing_component (self s)) as [e|] eqn:Hmiss.
  - by rewrite (step_unconfigured w s e).
  - apply missing_component_None in Hmiss as (g & ev & vocs & Hg & Hev & Hv).
    rewrite (step_configured w s g ev vocs) by done.
    assert (consistent (self (before_wait s g ev))) as Hbw.
    { apply consistent_after_submit. by apply consistent_set__generator. }
    pose proof (consistent_process_futures w _ Hbw) as Hpf.
    destruct (process_futures w (before_wait s g ev)) as [[n|e|] s'];
      simpl in *; try done.
    by apply consistent_set_n_unfinished_futures.
Qed.

Lemma consistent_exec s c :
  consistent (self s) → consistent (self (exec s c)).
Proof.
  intros HX. destruct c as [df| |w|w|h o]; unfold exec.
  - munfold. unfold new_frame.
    by apply (consistent_submit_data (length (frames s))
               (with_frames (frames s ++ [df]) s)).
  - by apply consistent_update_data.
  - munfold. pose proof (consistent_process_futures w s HX) as Hpf.
    by destruct (process_futures w s) as [[n|e|] s'].
  - by apply consistent_step.
  - done.
Qed.

Lemma consistent_exec_all s cs :
  consistent (self s) → consistent (self (exec_all s cs)).
Proof.
  revert s. induction cs as [|c cs IH]; intros s HX; [done|].
  simpl. by apply IH, consistent_exec.
Qed.

(** Every state a configured orchestrator reaches is consistent. *)
Lemma consistent_reachable g ev vocs opts cs :
  consistent (self (exec_all (start (Some g) (Some ev) vocs opts) cs)).
Proof. apply consistent_exec_all, consistent_init. Qed.








(** ** Strict mode *)

Lemma elem_of_set_iter order fs f : f ∈ set_iter order fs ↔ f ∈ fs.
Proof.
  unfold set_iter.
  rewrite elem_of_app, elem_of_remove_dups, !list_elem_of_filter.
  destruct (decide (f ∈ order)); tauto.
Qed.

Lemma raise_first_exception_raises l s :
  (∀ f, f ∈ l → done (pool s) f = true) →
  (∃ f e, f ∈ l ∧ Future_state (pool s) f = Finished (Raised e)) →
  ∃ f e, first_failure (pool s) l f e ∧
         raise_first_exception l s = (Raise e, s).
Proof.
  induction l as [|f l IH]; intros Hdone (f0 & e0 & Hin & Hfail).
  - by apply elem_of_nil in Hin.
  - simpl. munfold. unfold Future_exception.
    assert (done (pool s) f = true) as Hf by (apply Hdone; left).
    unfold done in Hf.
    destruct (Future_state (pool s) f) as [|[outputs|e]] eqn:Hst; [done| |].
    + destruct IH as (f1 & e1 & (before & after & -> & Hf1 & Hbefore) & Hr).
      { intros f' Hf'. apply Hdone. by right. }
      { apply elem_of_cons in Hin as [->|Hin]; [congruence|].
        by exists f0, e0. }
      exists f1, e1. split; [|done].
      exists (f :: before), after. split_and!; [done|done|].
      constructor; [by exists outputs|done].
    + exists f, e. split; [|done]. exists [], l. by split_and!.
Qed.

Lemma finished_futures_done w s f :
  f ∈ finished_at_return w s → done (pool (after_arrivals w s)) f = true.
Proof. unfold finished_at_return. by intros [? _]%list_elem_of_filter. Qed.

Lemma strict_aborts w s :
  strict (options (self s)) = true →
  wait_returns w s = true →
  (∃ f e, f ∈ finished_at_return w s ∧
          Future_state (pool (after_arrivals w s)) f = Finished (Raised e)) →
  ∃ f e,
    first_failure (pool (after_arrivals w s))
      (set_iter (set_order w) (finished_at_return w s)) f e ∧
    process_futures w s = (Raise e, after_arrivals w s).
Proof.
  intros Hstrict Hret (f0 & e0 & Hin & Hfail).
  destruct (raise_first_exception_raises
              (set_iter (set_order w) (finished_at_return w s))
              (after_arrivals w s)) as (f & e & Hfirst & Hraise).
  { intros f. rewrite elem_of_set_iter. apply finished_futures_done. }
  { exists f0, e0. by rewrite elem_of_set_iter. }
  exists f, e. split; [done|].
  rewrite process_futures_unfold, Hret. unfold strict_check.
  by rewrite Hstrict, Hraise.
Qed.

(** What the call of [wait] in [process_futures] returns. *)
Lemma wait_spec w s :
  wait (values (_futures (self s))) (timeout (options (self s)))
    (return_when (self s)) w s =
    if wait_returns w s
    then (Ok (set_iter (set_order w) (finished_at_return w s),
              unfinished_at_return w s), after_arrivals w s)
    else (Hang, after_arrivals w s).
Proof. reflexivity. Qed.

Lemma wait_returned w s fin unfin s1 :
  wait (values (_futures (self s))) (timeout (options (self s)))
    (return_when (self s)) w s
    = (Ok (fin, unfin), s1) →
  wait_returns w s = true ∧
  fin = set_iter (set_order w) (finished_at_return w s) ∧
  unfin = unfinished_at_return w s ∧
  s1 = after_arrivals w s.
Proof.
  rewrite wait_spec. destruct (wait_returns w s); [|done].
  intros Heq. by inversion Heq.
Qed.

Lemma first_failure_elem_of p l f e :
  first_failure p l f e → f ∈ l ∧ Future_state p f = Finished (Raised e).
Proof.
  intros (before & after & -> & Hf & _). split; [|done].
  apply elem_of_app. right. left.
Qed.

(** ** Merging when nothing has finished *)

Lemma none_finished_nil s :
  none_finished s → finished (pool s) (_futures (self s)) = [].
Proof.
  intros Hnone. apply filter_none. intros kv Hin Hdone.
  unfold none_finished in Hnone. rewrite Forall_forall in Hnone.
  specialize (Hnone kv Hin). congruence.
Qed.

Lemma observations_after_idle_merge X :
  observations (after_idle_merge X) = observations X.
Proof.
  unfold observations. simpl. destruct (_data X); simpl; [|done].
  by rewrite app_nil_r.
Qed.

Lemma idle_merge_frame s :
  none_finished s →
  let s' := (update_data s).2 in
  observations (self s') = observations (self s) ∧
  _input_data (self s') = _input_data (self s) ∧
  _futures (self s') = _futures (self s) ∧
  pool s' = pool s ∧ frames s' = frames s ∧
  (_data (self s') = _data (self s) ∨
   _data (self s) = None ∧ _data (self s') = Some []).
Proof.
  intros Hnone s'. subst s'.
  rewrite (update_data_idle s (none_finished_nil s Hnone)).
  destruct (_input_data (self s)) as [input|] eqn:Hinput.
  - assert (_data (after_idle_merge (self s)) = _data (self s) ∨
            _data (self s) = None ∧
            _data (after_idle_merge (self s)) = Some []) as Hdata.
    { simpl. destruct (_data (self s)); simpl; [left|by right].
      by rewrite app_nil_r. }
    destruct (_generator (self s)) as [g|]; simpl;
      (split_and!; [apply observations_after_idle_merge|done..]).
  - simpl. split_and!; try done. by left.
Qed.

(** ** What [step] asks of the generator *)

Lemma update_data_requests s g :
  consistent (self s) → _generator (self s) = Some g →
  ∃ g', _generator (self (update_data s).2) = Some g' ∧
        requests g' = requests g.
Proof.
  intros HX Hg. destruct (_input_data (self s)) as [input|] eqn:Hinput.
  - assert (pending (self s) = input) as Hpend
      by (unfold pending; by rewrite Hinput).
    rewrite (update_data_spec s input Hinput).
    + rewrite Hg. simpl. by eexists.
    + rewrite <- Hpend. by apply consistent_NoDup.
    + rewrite <- Hpend. by apply futures_pending.
  - rewrite update_data_no_input by done. by exists g.
Qed.

Lemma process_futures_requests w s g :
  consistent (self s) → _generator (self s) = Some g →
  ∃ g', _generator (self (process_futures w s).2) = Some g' ∧
        requests g' = requests g.
Proof.
  intros HX Hg. rewrite process_futures_unfold.
  destruct (wait_returns w s); [|by exists g].
  destruct (strict_check w s (after_arrivals w s)).1; try by exists g.
  destruct (update_data_requests (after_stragglers w s) g HX Hg)
    as (g' & Hg' & Hreq).
  exists g'. by destruct (update_data (after_stragglers w s)) as [[[]|e|] s'].
Qed.

(** ** Synchronous steps *)

Lemma filter_length_all {A} (P : A → Prop) `{∀ x, Decision (P x)}
    (l : list A) :
  length (filter P l) = length l → ∀ x, x ∈ l → P x.
Proof.
  intros Hlen x Hin. destruct (decide (P x)) as [|Hn]; [done|].
  pose proof (length_filter_lt P l x Hin Hn). lia.
Qed.

Lemma done_resolve p ho f : done p f = true → done (resolve p ho) f = true.
Proof.
  unfold done, Future_state, resolve. intros Hdone.
  destruct (p !! ho.1) as [[|o]|] eqn:Hho; try done.
  destruct (decide (ho.1 = f)) as [<-|Hne].
  - by rewrite Hho in Hdone.
  - by rewrite list_lookup_insert_ne.
Qed.

Lemma done_resolve_all p events f :
  done p f = true → done (foldl resolve p events) f = true.
Proof.
  revert p. induction events as [|ho events IH]; intros p Hdone; [done|].
  simpl. by apply IH, done_resolve.
Qed.

Lemma all_completed_done w s :
  wait_satisfied ALL_COMPLETED (finished_at_return w s) (waited_for s) = true →
  unfinished_at_return w s = [] ∧
  ∀ f, f ∈ values (_futures (self s)) →
       done (pool (after_arrivals w s)) f = true.
Proof.
  simpl. intros Hlen%bool_decide_eq_true.
  assert (∀ f, f ∈ waited_for s → done (pool (after_arrivals w s)) f = true)
    as Hall.
  { intros f Hf.
    by apply (filter_length_all
                (λ f, done (pool (after_arrivals w s)) f = true)
                (waited_for s)). }
  split.
  - apply filter_none. intros f Hf. rewrite (Hall f Hf). done.
  - intros f Hf. apply Hall. unfold waited_for.
    by apply elem_of_remove_dups.
Qed.

(** * The claims *)




(** C4. In strict mode, when a future of the set of finished futures that
    [wait] returns holds an exception, [process_futures] raises the
    exception of the first such future in the order of iteration of the set
    (that very exception when no other finished future holds one); it stops
    there, in the state in which [wait] returned, so no error row is
    captured; [step] and [run] raise the same exception. *)
Theorem strict_reraises w s finished_futures unfinished_futures s1 f e :
  strict (options (self s)) = true →
  wait (values (_futures (self s))) (timeout (options (self s)))
    (return_when (self s)) w s
    = (Ok (finished_futures, unfinished_futures), s1) →
  f ∈ finished_futures →
  Future_state (pool s1) f = Finished (Raised e) →
  ∃ f' e',
    first_failure (pool s1) finished_futures f' e' ∧
    process_futures w s = (Raise e', s1) ∧
    _data (self s1) = _data (self s) ∧
    ((∀ f'' e'',
        f'' ∈ finished_futures →
        Future_state (pool s1) f'' = Finished (Raised e'') → f'' = f) →
     e' = e) ∧
    ∀ s0 g ev vocs,
      _generator (self s0) = Some g → _evaluator (self s0) = Some ev →
      _vocs (self s0) = Some vocs → s = before_wait s0 g ev →
      step w s0 = (Raise e', s1) ∧
      ∀ ws, _is_done (self s0) = false → run (w :: ws) s0 = (Raise e', s1).
Proof.
  intros Hstrict Hwait Hin Hfail.
  apply wait_returned in Hwait as (Hret & -> & -> & ->).
  destruct (strict_aborts w s Hstrict Hret) as (f' & e' & Hfirst & Hpf).
  { exists f, e. by rewrite elem_of_set_iter in Hin. }
  pose proof (first_failure_elem_of _ _ _ _ Hfirst) as [Hf' He'].
  exists f', e'. split_and!.
  - done.
  - done.
  - done.
  - intros Honly. specialize (Honly f' e' Hf' He'). subst f'. congruence.
  - intros s0 g ev vocs Hg Hev Hvocs ->.
    assert (step w s0 = (Raise e', after_arrivals w (before_wait s0 g ev)))
      as Hstep.
    { rewrite (step_configured w s0 g ev vocs) by done. by rewrite Hpf. }
    split; [done|].
    intros ws Hrun. simpl. munfold. simpl. by rewrite Hrun, Hstep.
Qed.

Lemma strict_reraises_witness :
  strict (options (self strict_submitted)) = true ∧
  wait (values (_futures (self strict_submitted)))
    (timeout (options (self strict_submitted)))
    (return_when (self strict_submitted))
    first_returns_second_raises strict_submitted
    = (Ok ([0; 1]%nat, []),
       after_arrivals first_returns_second_raises strict_submitted) ∧
  1%nat ∈ [0; 1]%nat ∧
  Future_state
    (pool (after_arrivals first_returns_second_raises strict_submitted)) 1
    = Finished (Raised bad_input) ∧
  (process_futures first_returns_second_raises strict_submitted).1
    = Raise bad_input ∧
  _data (self (process_futures first_returns_second_raises
                 strict_submitted).2) = None ∧
  (step first_returns_second_raises strict_start).1 = Raise bad_input ∧
  (run [first_returns_second_raises] strict_start).1 = Raise bad_input.
Proof.
  assert (strict (options (self strict_submitted)) = true) as H1
    by reflexivity.
  assert (wait (values (_futures (self strict_submitted)))
            (timeout (options (self strict_submitted)))
            (return_when (self strict_submitted))
            first_returns_second_raises strict_submitted
          = (Ok ([0; 1]%nat, []),
             after_arrivals first_returns_second_raises strict_submitted))
    as H2 by (vm_compute; reflexivity).
  assert (1%nat ∈ [0; 1]%nat) as H3 by (right; left).
  assert (Future_state
            (pool (after_arrivals first_returns_second_raises
                     strict_submitted)) 1
          = Finished (Raised bad_input)) as H4 by reflexivity.
  destruct (strict_reraises first_returns_second_raises strict_submitted
              [0; 1]%nat []
              (after_arrivals first_returns_second_raises strict_submitted)
              1%nat bad_input H1 H2 H3 H4)
    as (f' & e' & _ & Hpf & Hdata & Honly & Hstep).
  assert (e' = bad_input) as ->.
  { apply Honly. intros f'' e'' Hf'' He''.
    apply elem_of_cons in Hf'' as [->|Hf''].
    { vm_compute in He''. discriminate. }
    apply elem_of_cons in Hf'' as [->|Hf'']; [reflexivity|].
    by apply elem_of_nil in Hf''. }
  destruct (Hstep strict_start gen0 eval0 vocs0) as [Hs Hrun];
    [reflexivity..|].
  split_and!; [exact H1|exact H2|exact H3|exact H4|..].
  - by rewrite Hpf.
  - rewrite Hpf. exact Hdata.
  - by rewrite Hs.
  - rewrite Hrun; reflexivity.
Defined.

(** C5. [update_data] called while no future of the dictionary has
    finished leaves the rows of the observation table, the pending-input
    table and the futures dictionary as they are (the attribute [_data]
    itself, while still [None], becomes a frame without rows), and so does
    calling it again. *)
Theorem merge_nothing_resolved s :
  none_finished s →
  let s' := (update_data s).2 in
  let s'' := (update_data s').2 in
  (observations (self s') = observations (self s) ∧
   _input_data (self s') = _input_data (self s) ∧
   _futures (self s') = _futures (self s) ∧
   (_data (self s') = _data (self s) ∨
    _data (self s) = None ∧ _data (self s') = Some [])) ∧
  (observations (self s'') = observations (self s') ∧
   _input_data (self s'') = _input_data (self s') ∧
   _futures (self s'') = _futures (self s')).
Proof.
  intros Hnone s' s''.
  destruct (idle_merge_frame s Hnone) as (Hobs & Hin & Hfut & Hpool & _ & Hd).
  fold s' in Hobs, Hin, Hfut, Hpool, Hd.
  assert (none_finished s') as Hnone'.
  { unfold none_finished. by rewrite Hpool, Hfut. }
  destruct (idle_merge_frame s' Hnone') as (Hobs' & Hin' & Hfut' & _).
  by split_and!.
Qed.

Lemma merge_nothing_resolved_witness :
  none_finished two_rows_pending ∧
  observations (self (update_data two_rows_pending).2)
    = observations (self two_rows_pending) ∧
  _input_data (self (update_data two_rows_pending).2)
    = _input_data (self two_rows_pending) ∧
  _futures (self (update_data two_rows_pending).2)
    = _futures (self two_rows_pending).
Proof.
  assert (none_finished two_rows_pending) as Hnone.
  { vm_compute. repeat constructor. }
  split; [exact Hnone|].
  destruct (merge_nothing_resolved two_rows_pending Hnone)
    as [(Hobs & Hin & Hfut & _) _].
  split_and!; [exact Hobs|exact Hin|exact Hfut].
Defined.

(** C6. A call of [step] on a configured orchestrator asks the generator
    once, for [max_workers] candidates in synchronous mode and for
    [max_workers - n_unfinished_futures] in asynchronous mode. *)
Theorem step_requests g0 ev0 vocs0 opts cs w g ev vocs :
  let s := exec_all (start (Some g0) (Some ev0) vocs0 opts) cs in
  _generator (self s) = Some g → _evaluator (self s) = Some ev →
  _vocs (self s) = Some vocs →
  ∃ g',
    _generator (self (step w s).2) = Some g' ∧
    requests g' =
      (if asynch (options (self s))
       then max_workers ev - n_unfinished_futures (self s)
       else max_workers ev) :: requests g.
Proof.
  intros s Hg Hev Hvocs.
  pose proof (consistent_reachable g0 ev0 vocs0 opts cs) as HX. fold s in HX.
  rewrite (step_configured w s g ev vocs) by done.
  assert (consistent (self (before_wait s g ev))) as Hbw.
  { apply consistent_after_submit. by apply consistent_set__generator. }
  destruct (process_futures_requests w (before_wait s g ev)
              (Generator_generate g (n_generate (self s) ev)).2 Hbw)
    as (g' & Hg' & Hreq); [done|].
  exists g'. split.
  - by destruct (process_futures w (before_wait s g ev)) as [[n|e|] s'].
  - rewrite Hreq. simpl. unfold n_generate. by destruct (asynch _).
Qed.

Lemma step_requests_witness :
  _generator (self (exec_all (start (Some gen0) (Some eval0) (Some vocs0) asynch_options)
       [call_step first_returns])) = Some gen1 ∧
  _evaluator (self (exec_all (start (Some gen0) (Some eval0) (Some vocs0) asynch_options)
       [call_step first_returns])) = Some eval0 ∧
  _vocs (self (exec_all (start (Some gen0) (Some eval0) (Some vocs0) asynch_options)
       [call_step first_returns])) = Some vocs0 ∧
  n_unfinished_futures (self (exec_all (start (Some gen0) (Some eval0) (Some vocs0) asynch_options)
       [call_step first_returns])) = 1 ∧
  ∃ g', _generator (self (step second_returns (exec_all (start (Some gen0) (Some eval0) (Some vocs0) asynch_options)
       [call_step first_returns])).2) = Some g' ∧
        requests g' = [1; 2].
Proof.
  assert (_generator (self (exec_all (start (Some gen0) (Some eval0) (Some vocs0) asynch_options)
       [call_step first_returns])) = Some gen1) as H1
    by (vm_compute; reflexivity).
  assert (_evaluator (self (exec_all (start (Some gen0) (Some eval0) (Some vocs0) asynch_options)
       [call_step first_returns])) = Some eval0) as H2
    by (vm_compute; reflexivity).
  assert (_vocs (self (exec_all (start (Some gen0) (Some eval0) (Some vocs0) asynch_options)
       [call_step first_returns])) = Some vocs0) as H3
    by (vm_compute; reflexivity).
  assert (n_unfinished_futures (self (exec_all (start (Some gen0) (Some eval0) (Some vocs0) asynch_options)
       [call_step first_returns])) = 1) as H4
    by (vm_compute; reflexivity).
  destruct (step_requests gen0 eval0 (Some vocs0) asynch_options
              [call_step first_returns] second_returns gen1 eval0 vocs0
              H1 H2 H3)
    as (g' & Hg' & Hreq).
  split_and!; [exact H1|exact H2|exact H3|exact H4|].
  exists g'. split; [exact Hg'|].
  rewrite Hreq. vm_compute. reflexivity.
Defined.

(** C7. In synchronous mode a [step] that returns, without the timeout of
    the wait having expired, records zero unfinished futures: every future
    of the dictionary, those left over from earlier steps included, had
    finished when the wait returned, and all of them have been merged. *)
Theorem sync_step_none_unfinished g0 ev0 vocs0 opts cs w g ev s' :
  let s := exec_all (start (Some g0) (Some ev0) vocs0 opts) cs in
  asynch (options (self s)) = false →
  _generator (self s) = Some g → _evaluator (self s) = Some ev →
  step w s = (Ok tt, s') →
  ¬ timed_out w (before_wait s g ev) →
  n_unfinished_futures (self s') = 0 ∧
  (∀ f, f ∈ values (_futures (self (before_wait s g ev))) →
        done (pool s') f = true) ∧
  _futures (self s') = [].
Proof.
  intros s Hsync Hg Hev Hstep Hno.
  pose proof (consistent_reachable g0 ev0 vocs0 opts cs) as HX. fold s in HX.
  destruct (missing_component (self s)) as [e|] eqn:Hmiss.
  { by rewrite (step_unconfigured w s e) in Hstep. }
  apply missing_component_None in Hmiss as (g1 & ev1 & vocs & Hg1 & Hev1 & Hv).
  rewrite Hg in Hg1. rewrite Hev in Hev1.
  inversion Hg1; subst g1. inversion Hev1; subst ev1.
  rewrite (step_configured w s g ev vocs) in Hstep by done.
  set (bw := before_wait s g ev) in *.
  assert (consistent (self bw)) as Hbw.
  { apply consistent_after_submit. by apply consistent_set__generator. }
  assert (return_when (self bw) = ALL_COMPLETED) as Hrw.
  { rewrite (return_when_asynch _ Hbw).
    change (options (self bw)) with (options (self s)). by rewrite Hsync. }
  rewrite process_futures_unfold in Hstep.
  destruct (wait_returns w bw) eqn:Hret; [|done].
  destruct (strict_check w bw (after_arrivals w bw)).1; try done.
  assert (wait_satisfied ALL_COMPLETED (finished_at_return w bw)
            (waited_for bw) = true) as Hsat.
  { rewrite <- Hrw. unfold wait_returns in Hret.
    destruct (wait_satisfied _ _ _) eqn:Hs; [done|].
    exfalso. apply Hno. split; [|done].
    simpl in Hret. by apply bool_decide_eq_true in Hret. }
  apply all_completed_done in Hsat as [Hnone Hall].
  set (u := after_stragglers w bw) in *.
  assert (∀ f, f ∈ values (_futures (self bw)) → done (pool u) f = true)
    as Hall'.
  { intros f Hf. apply done_resolve_all, Hall, Hf. }
  destruct (_input_data (self u)) as [input|] eqn:Hinput.
  - assert (pending (self u) = input) as Hpend
      by (unfold pending; by rewrite Hinput).
    rewrite (update_data_spec u input Hinput) in Hstep; [| |].
    + destruct (has_generator _ Hbw) as [g' Hg']. 
      change (_generator (self u)) with (_generator (self bw)) in Hstep.
      rewrite Hg' in Hstep. inversion Hstep; subst s'. simpl.
      split_and!.
      * by rewrite Hnone.
      * done.
      * apply filter_none. intros [ix f] Hin. simpl.
        rewrite Hall'; [done|].
        apply list_elem_of_fmap. by exists (ix, f).
    + rewrite <- Hpend. by apply consistent_NoDup.
    + rewrite <- Hpend. by apply futures_pending.
  - by rewrite update_data_no_input in Hstep.
Qed.

Lemma sync_step_none_unfinished_witness :
  asynch (options (self sync_start)) = false ∧
  _generator (self sync_start) = Some gen0 ∧
  _evaluator (self sync_start) = Some eval0 ∧
  step first_returns_second_raises sync_start
    = (Ok tt, (step first_returns_second_raises sync_start).2) ∧
  ¬ timed_out first_returns_second_raises
      (before_wait sync_start gen0 eval0) ∧
  n_unfinished_futures
    (self (step first_returns_second_raises sync_start).2) = 0 ∧
  _futures (self (step first_returns_second_raises sync_start).2) = [].
Proof.
  assert (asynch (options (self sync_start)) = false) as H1 by reflexivity.
  assert (_generator (self sync_start) = Some gen0) as H2 by reflexivity.
  assert (_evaluator (self sync_start) = Some eval0) as H3 by reflexivity.
  assert (step first_returns_second_raises sync_start
          = (Ok tt, (step first_returns_second_raises sync_start).2)) as H4.
  { vm_compute. reflexivity. }
  assert (¬ timed_out first_returns_second_raises
              (before_wait sync_start gen0 eval0)) as H5.
  { intros [[t Ht] _]. vm_compute in Ht. discriminate. }
  destruct (sync_step_none_unfinished gen0 eval0 (Some vocs0) sync_options
              [] first_returns_second_raises gen0 eval0
              (step first_returns_second_raises sync_start).2
              H1 H2 H3 H4 H5)
    as (Hn & _ & Hfut).
  split_and!; [exact H1|exact H2|exact H3|exact H4|exact H5|exact Hn|
               exact Hfut].
Defined.


(** C8. With the generator, the evaluator or the VOCS missing, [step]
    raises an [XoptError] and the whole state, the generator's trace of
    requests and the executor's pool included, is as before the call. *)
Theorem step_checks_components w s :
  _generator (self s) = None ∨ _evaluator (self s) = None ∨
    _vocs (self s) = None →
  ∃ msg, step w s = (Raise (XoptError msg), s).
Proof.
  intros Hmiss.
  assert (∃ msg, missing_component (self s) = Some (XoptError msg))
    as [msg Hmsg].
  { unfold missing_component.
    destruct (_generator (self s)), (_evaluator (self s)), (_vocs (self s));
      try (eexists; reflexivity).
    by destruct Hmiss as [?|[?|?]]. }
  exists msg. by apply step_unconfigured.
Qed.

Lemma step_checks_components_witness :
  (_generator (self no_generator) = None ∨
   _evaluator (self no_generator) = None ∨
   _vocs (self no_generator) = None) ∧
  ∃ msg,
    step first_returns no_generator = (Raise (XoptError msg), no_generator).
Proof.
  split; [left; reflexivity|].
  apply (step_checks_components first_returns no_generator).
  left. reflexivity.
Defined.

(** C9. When the strict check of [process_futures] raises, nothing is
    merged: the orchestrator (observation table, pending-input table,
    futures dictionary and all) is as it was before the wait, and the
    futures that [wait] returned as finished, with a result or with an
    exception, are still in the dictionary. *)
Theorem strict_raise_merges_nothing w s finished_futures
    unfinished_futures s1 f e :
  strict (options (self s)) = true →
  wait (values (_futures (self s))) (timeout (options (self s)))
    (return_when (self s)) w s
    = (Ok (finished_futures, unfinished_futures), s1) →
  f ∈ finished_futures →
  Future_state (pool s1) f = Finished (Raised e) →
  let s' := (process_futures w s).2 in
  self s' = self s ∧
  _data (self s') = _data (self s) ∧
  _input_data (self s') = _input_data (self s) ∧
  _futures (self s') = _futures (self s) ∧
  frames s' = frames s ∧
  pool s' = foldl resolve (pool s) (arrivals w) ∧
  ∀ f', f' ∈ finished_futures →
        f' ∈ values (_futures (self s')) ∧ done (pool s') f' = true.
Proof.
  intros Hstrict Hwait Hin Hfail s'.
  apply wait_returned in Hwait as (Hret & -> & -> & ->).
  destruct (strict_aborts w s Hstrict Hret) as (f' & e' & Hfirst & Hpf).
  { exists f, e. by rewrite elem_of_set_iter in Hin. }
  subst s'. rewrite Hpf. simpl. split_and!; try done.
  intros f'' Hf''. rewrite elem_of_set_iter in Hf''. split.
  - unfold finished_at_return, waited_for in Hf''.
    apply list_elem_of_filter in Hf'' as [_ Hf''].
    rewrite elem_of_remove_dups in Hf''. exact Hf''.
  - by apply finished_futures_done in Hf''.
Qed.

Lemma strict_raise_merges_nothing_witness :
  strict (options (self strict_submitted)) = true ∧
  wait (values (_futures (self strict_submitted)))
    (timeout (options (self strict_submitted)))
    (return_when (self strict_submitted))
    first_returns_second_raises strict_submitted
    = (Ok ([0; 1]%nat, []),
       after_arrivals first_returns_second_raises strict_submitted) ∧
  1%nat ∈ [0; 1]%nat ∧
  Future_state
    (pool (after_arrivals first_returns_second_raises strict_submitted)) 1
    = Finished (Raised bad_input) ∧
  self (process_futures first_returns_second_raises strict_submitted).2
    = self strict_submitted ∧
  0%nat ∈ values (_futures (self (process_futures
                     first_returns_second_raises strict_submitted).2)) ∧
  done (pool (process_futures first_returns_second_raises
                strict_submitted).2) 0 = true.
Proof.
  assert (strict (options (self strict_submitted)) = true) as H1
    by reflexivity.
  assert (wait (values (_futures (self strict_submitted)))
            (timeout (options (self strict_submitted)))
            (return_when (self strict_submitted))
            first_returns_second_raises strict_submitted
          = (Ok ([0; 1]%nat, []),
             after_arrivals first_returns_second_raises strict_submitted))
    as H2 by (vm_compute; reflexivity).
  assert (1%nat ∈ [0; 1]%nat) as H3 by (right; left).
  assert (Future_state
            (pool (after_arrivals first_returns_second_raises
                     strict_submitted)) 1
          = Finished (Raised bad_input)) as H4 by reflexivity.
  assert (0%nat ∈ [0; 1]%nat) as Hin0 by left.
  destruct (strict_raise_merges_nothing first_returns_second_raises
              strict_submitted [0; 1]%nat []
              (after_arrivals first_returns_second_raises strict_submitted)
              1%nat bad_input H1 H2 H3 H4)
    as (Hself & _ & _ & _ & _ & _ & Hkept).
  split_and!; [exact H1|exact H2|exact H3|exact H4|exact Hself|
               exact (proj1 (Hkept 0%nat Hin0))|
               exact (proj2 (Hkept 0%nat Hin0))].
Defined.

(** C10. [submit_data] does not change the frame object it is passed, nor
    any other frame the caller holds: the labels are reassigned on a copy. *)
Theorem submit_data_keeps_input r s df :
  frames s !! r = Some df →
  let s' := (submit_data r s).2 in
  frames s' !! r = Some df ∧
  (∀ r' df', frames s !! r' = Some df' → frames s' !! r' = Some df') ∧
  frames s' = frames s ++ [set_index (arange (_ix_last (self s) + 1)
                                       (_ix_last (self s) + 1 + len df)) df].
Proof.
  intros Hr s'. subst s'. rewrite (submit_data_spec r df s Hr).
  assert (∀ fr : list DataFrame, ∀ r' df',
            frames s !! r' = Some df' → (frames s ++ fr) !! r' = Some df')
    as Hframe.
  { intros fr r' df' Hr'. by apply lookup_app_l_Some. }
  destruct (_evaluator (self s)); simpl; split_and!; auto.
Qed.

Lemma submit_data_keeps_input_witness :
  frames caller_with_frame !! 0%nat = Some two_rows ∧
  frames (submit_data 0 caller_with_frame).2 !! 0%nat = Some two_rows ∧
  frames (submit_data 0 caller_with_frame).2 =
    [two_rows; [(0, [("x", VNum 10)]); (1, [("x", VNum 20)])]].
Proof.
  split; [reflexivity|].
  destruct (submit_data_keeps_input 0 caller_with_frame two_rows)
    as (Hkept & _ & Hframes); [reflexivity|].
  split; [exact Hkept|exact Hframes].
Defined.

(** * Examples *)

(** The scenario of the specification: capacity 2, synchronous, row 0
    returns [y = 1] and row 1 raises. After one [step] the observation
    table has both rows and no future is unfinished. *)
Example sync_step_scenario :
  let s' := (step first_returns_second_raises sync_start).2 in
  _data (self s') =
    Some [(0, [("x", VNum 0); ("y", VNum 1);
               ("xopt_error", VBool false); ("xopt_error_str", VStr "")]);
          (1, [("x", VNum 1); ("xopt_error", VBool true);
               ("xopt_error_str", VStr (format_exc bad_input))])] ∧
  n_unfinished_futures (self s') = 0 ∧
  _input_data (self s') = Some [] ∧
  _futures (self s') = [] ∧
  _ix_last (self s') = 1.
Proof. vm_compute. by split_and!. Qed.

(** Without an evaluator [submit_data] raises after it has extended the
    pending-input table: the bookkeeping invariant is one of configured
    orchestrators. *)
Example submit_data_without_evaluator :
  let s := (new_frame two_rows (start (Some gen0) None None sync_options)).2 in
  (submit_data 0 s).1 = Raise (NoneType_has_no "submit_data") ∧
  index (pending (self (submit_data 0 s).2)) = [0; 1] ∧
  keys (_futures (self (submit_data 0 s).2)) = [].
Proof. vm_compute. by split_and!. Qed.

(** * Further properties of the orchestrator *)

(** ** The observation table only grows *)

Lemma observations_after_update p X input g :
  observations (after_update p X input g)
  = observations X ++ merged_batch p X input.
Proof.
  change (observations (after_update p X input g))
    with (pd_concat (_data X) (merged_batch p X input)).
  unfold observations. by destruct (_data X).
Qed.

(** What [update_data] does on a consistent orchestrator. *)
Lemma update_data_consistent s :
  consistent (self s) →
  update_data s = (Raise (NoneType_has_no "loc"), s) ∧
    _input_data (self s) = None ∨
  ∃ input g,
    _input_data (self s) = Some input ∧ _generator (self s) = Some g ∧
    update_data s = (Ok tt, with_self (after_update (pool s) (self s) input g) s).
Proof.
  intros HX. destruct (_input_data (self s)) as [input|] eqn:Hinput.
  - right. destruct (has_generator _ HX) as [g Hg]. exists input, g.
    assert (pending (self s) = input) as Hpend
      by (unfold pending; by rewrite Hinput).
    split_and!; [done|done|].
    rewrite (update_data_spec s input Hinput), Hg; [done| |].
    + rewrite <- Hpend. by apply consistent_NoDup.
    + rewrite <- Hpend. by apply futures_pending.
  - left. split; [|done]. by apply update_data_no_input.
Qed.









(** ** An induction principle for executions

    A property of the orchestrator and the pool holds along every execution
    of a consistent orchestrator when the elementary changes keep it: a
    submission, a merge, a call of the generator, the recording of the
    count of unfinished futures and the completion of a future. *)
Section execution_invariant.
Context (P : Xopt → list Future → Prop).
Context (P_submit : ∀ X df p,
  consistent X → P X p →
  P (after_submit X df p) (p ++ replicate (length df) Running)).
Context (P_update : ∀ X p input g,
  consistent X → _input_data X = Some input → _generator X = Some g →
  P X p → P (after_update p X input g) p).
Context (P_generate : ∀ X p g n,
  consistent X → _generator X = Some g → P X p →
  P (set__generator (Some (Generator_generate g n).2) X) p).
Context (P_count : ∀ X p n, P X p → P (set_n_unfinished_futures n X) p).
Context (P_resolve : ∀ X p ho, consistent X → P X p → P X (resolve p ho)).

Lemma invariant_resolve_all X p events :
  consistent X → P X p → P X (foldl resolve p events).
Proof.
  intros HX. revert p. induction events as [|ho events IH]; intros p HP;
    [done|].
  simpl. by apply IH, P_resolve.
Qed.

Lemma invariant_submit_data r s :
  consistent (self s) → P (self s) (pool s) →
  P (self (submit_data r s).2) (pool (submit_data r s).2).
Proof.
  intros HX HP. destruct (frames s !! r) as [df|] eqn:Hr.
  - rewrite (submit_data_spec r df s Hr).
    destruct (has_evaluator _ HX) as [ev ->]. simpl. by apply P_submit.
  - by rewrite submit_data_dangling.
Qed.

Lemma invariant_update_data s :
  consistent (self s) → P (self s) (pool s) →
  P (self (update_data s).2) (pool (update_data s).2).
Proof.
  intros HX HP.
  destruct (update_data_consistent s HX)
    as [[-> _]|(input & g & Hinput & Hg & ->)]; [done|].
  simpl. by apply P_update.
Qed.

Lemma invariant_process_futures w s :
  consistent (self s) → P (self s) (pool s) →
  P (self (process_futures w s).2) (pool (process_futures w s).2).
Proof.
  intros HX HP. rewrite process_futures_unfold.
  assert (P (self s) (pool (after_arrivals w s))) as HP1
    by by apply invariant_resolve_all.
  destruct (wait_returns w s); [|done].
  destruct (strict_check w s (after_arrivals w s)).1; try done.
  assert (P (self (after_stragglers w s)) (pool (after_stragglers w s)))
    as HP2 by by apply invariant_resolve_all.
  pose proof (invariant_update_data (after_stragglers w s) HX HP2) as Hup.
  by destruct (update_data (after_stragglers w s)) as [[[]|e|] s'].
Qed.

Lemma invariant_before_wait s g ev :
  consistent (self s) → _generator (self s) = Some g →
  P (self s) (pool s) →
  P (self (before_wait s g ev)) (pool (before_wait s g ev)).
Proof.
  intros HX Hg HP. simpl. apply P_submit.
  - by apply consistent_set__generator.
  - by apply P_generate.
Qed.

Lemma invariant_step w s :
  consistent (self s) → P (self s) (pool s) →
  P (self (step w s).2) (pool (step w s).2).
Proof.
  intros HX HP. destruct (missing_component (self s)) as [e|] eqn:Hmiss.
  - by rewrite (step_unconfigured w s e).
  - apply missing_component_None in Hmiss as (g & ev & vocs & Hg & Hev & Hv).
    rewrite (step_configured w s g ev vocs) by done.
    assert (consistent (self (before_wait s g ev))) as Hbw.
    { apply consistent_after_submit. by apply consistent_set__generator. }
    pose proof (invariant_before_wait s g ev HX Hg HP) as HPbw.
    pose proof (invariant_process_futures w _ Hbw HPbw) as Hpf.
    destruct (process_futures w (before_wait s g ev)) as [[n|e|] s'];
      simpl in *; try done.
    by apply P_count.
Qed.

Lemma invariant_exec s c :
  consistent (self s) → P (self s) (pool s) →
  P (self (exec s c)) (pool (exec s c)).
Proof.
  intros HX HP. destruct c as [df| |w|w|h o]; unfold exec.
  - munfold. unfold new_frame.
    by apply (invariant_submit_data (length (frames s))
                (with_frames (frames s ++ [df]) s)).
  - by apply invariant_update_data.
  - munfold. pose proof (invariant_process_futures w s HX HP) as Hpf.
    by destruct (process_futures w s) as [[n|e|] s'].
  - by apply invariant_step.
  - simpl. by apply P_resolve.
Qed.

Lemma invariant_exec_all s cs :
  consistent (self s) → P (self s) (pool s) →
  P (self (exec_all s cs)) (pool (exec_all s cs)).
Proof.
  revert s. induction cs as [|c cs IH]; intros s HX HP; [done|].
  simpl. apply IH; [by apply consistent_exec|by apply invariant_exec].
Qed.
End execution_invariant.

(** ** The generator is handed what is merged, and nothing else *)





(** ** What the methods leave alone

    A preorder on orchestrators that the assignments of [update_data] and
    [step] respect, and that [submit_data] respects, holds between the
    states before and after any call. *)
Section frame.
Context (R : Xopt → Xopt → Prop).
Context (R_refl : ∀ X, R X X).
Context (R_trans : ∀ X Y Z, R X Y → R Y Z → R X Z).
Context (R_generator : ∀ g X, R X (set__generator g X)).
Context (R_data : ∀ d X, R X (set__data d X)).
Context (R_new_data : ∀ d X, R X (set__new_data d X)).
Context (R_futures : ∀ f X, R X (set__futures f X)).
Context (R_input_data : ∀ d X, R X (set__input_data d X)).
Context (R_count : ∀ n X, R X (set_n_unfinished_futures n X)).
Context (R_submit_data : ∀ r, keeps R (submit_data r)).

Lemma keeps_pure {A} (m : M A) : (∀ s, (m s).2 = s) → keeps R m.
Proof. intros Hm s. rewrite Hm. apply R_refl. Qed.

Lemma keeps_bind {A B} (m : M A) (k : A → M B) :
  keeps R m → (∀ a, keeps R (k a)) → keeps R (m ≫= k).
Proof.
  intros Hm Hk s. specialize (Hm s). unfold mbind, M_bind.
  destruct (m s) as [[a|e|] s1]; simpl in *; [|done..].
  eapply R_trans; [exact Hm|apply Hk].
Qed.

Lemma keeps_ret {A} (a : A) : keeps R (mret a).
Proof. by apply keeps_pure. Qed.

Lemma keeps_raise {A} e : keeps R (raise (A := A) e).
Proof. by apply keeps_pure. Qed.

Lemma keeps_lift {A} (r : exc + A) : keeps R (lift r).
Proof. destruct r; by apply keeps_pure. Qed.

Lemma keeps_attr_of {A} (o : option A) attr : keeps R (attr_of o attr).
Proof. destruct o; by apply keeps_pure. Qed.

Lemma keeps_modify_self f : (∀ X, R X (f X)) → keeps R (modify_self f).
Proof. intros Hf s. apply Hf. Qed.

Lemma keeps_try_except {A} (m : M A) handler :
  keeps R m → (∀ e, keeps R (handler e)) → keeps R (try_except m handler).
Proof.
  intros Hm Hh s. specialize (Hm s). unfold try_except.
  destruct (m s) as [[a|e|] s1]; simpl in *; [done| |done].
  eapply R_trans; [exact Hm|apply Hh].
Qed.

Lemma keeps_Future_result h : keeps R (Future_result h).
Proof.
  apply keeps_pure. intros s. unfold Future_result.
  by destruct (Future_state (pool s) h) as [|[|]].
Qed.

Ltac keeps_tac :=
  first
    [ apply keeps_bind; [|intros ?]
    | apply keeps_ret
    | apply keeps_raise
    | apply keeps_lift
    | apply keeps_attr_of
    | apply keeps_Future_result
    | apply keeps_modify_self; intros ?;
      first [ apply R_generator | apply R_data | apply R_new_data
            | apply R_futures | apply R_input_data | apply R_count ]
    | apply keeps_pure; by intros ? ].

Lemma keeps_futures_pop ix : keeps R (futures_pop ix).
Proof.
  unfold futures_pop. apply keeps_bind; [by apply keeps_pure|]. intros X.
  destruct (dict_pop ix (_futures X)) as [[future rest]|];
    repeat keeps_tac.
Qed.

Lemma keeps_collect_outputs ix_done : keeps R (collect_outputs ix_done).
Proof.
  induction ix_done as [|ix rest IH]; simpl.
  - apply keeps_ret.
  - apply keeps_bind; [apply keeps_futures_pop|]. intros future.
    apply keeps_bind.
    { apply keeps_try_except; [|intros e]; repeat keeps_tac. }
    intros outputs. apply keeps_bind; [apply IH|]. intros ?.
    apply keeps_ret.
Qed.

Lemma keeps_update_data : keeps R update_data.
Proof.
  unfold update_data.
  apply keeps_bind; [by apply keeps_pure|]. intros s.
  apply keeps_bind; [apply keeps_attr_of|]. intros input.
  apply keeps_bind; [apply keeps_lift|]. intros idd.
  apply keeps_bind; [apply keeps_collect_outputs|]. intros out.
  repeat keeps_tac.
Qed.

Lemma keeps_process_futures w : keeps R (process_futures w).
Proof.
  unfold process_futures.
  apply keeps_bind; [by apply keeps_pure|]. intros X.
  apply keeps_bind.
  { intros s. unfold wait. destruct (_ || _); apply R_refl. }
  intros r. apply keeps_bind.
  { destruct (strict (options X)); [|apply keeps_ret].
    apply keeps_pure. apply raise_first_exception_state. }
  intros _. apply keeps_bind; [intros ?; apply R_refl|]. intros _.
  apply keeps_bind; [apply keeps_update_data|]. intros _.
  apply keeps_ret.
Qed.

Lemma keeps_step w : keeps R (step w).
Proof.
  unfold step.
  apply keeps_bind.
  { apply keeps_pure. intros s. rewrite check_components_spec.
    by destruct (missing_component (self s)). }
  intros _.
  apply keeps_bind; [by apply keeps_pure|]. intros X.
  apply keeps_bind.
  { destruct (asynch (options X)); repeat keeps_tac. }
  intros n. apply keeps_bind; [apply keeps_attr_of|]. intros g.
  apply keeps_bind; [repeat keeps_tac|]. intros _.
  apply keeps_bind; [intros ?; apply R_refl|]. intros new_samples.
  apply keeps_bind; [apply R_submit_data|]. intros _.
  apply keeps_bind; [apply keeps_process_futures|]. intros k.
  repeat keeps_tac.
Qed.

Lemma keeps_exec s c : R (self s) (self (exec s c)).
Proof.
  destruct c as [df| |w|w|h o]; unfold exec.
  - apply (keeps_bind (new_frame df) submit_data);
      [intros ?; apply R_refl|]. apply R_submit_data.
  - apply keeps_update_data.
  - apply (keeps_bind (process_futures w) (λ _, mret tt));
      [apply keeps_process_futures|]. intros _. apply keeps_ret.
  - apply keeps_step.
  - apply R_refl.
Qed.

Lemma keeps_exec_all s cs : R (self s) (self (exec_all s cs)).
Proof.
  revert s. induction cs as [|c cs IH]; intros s; [apply R_refl|].
  simpl. eapply R_trans; [apply (keeps_exec s c)|apply IH].
Qed.
End frame.

(** ** No method changes the setup *)

Lemma same_setup_refl X : same_setup X X.
Proof. by split_and!. Qed.

Lemma same_setup_trans X Y Z :
  same_setup X Y → same_setup Y Z → same_setup X Z.
Proof.
  intros (? & ? & ? & ? & ?) (? & ? & ? & ? & ?).
  split_and!; congruence.
Qed.

Lemma keeps_setup_submit_data r : keeps same_setup (submit_data r).
Proof.
  intros s. destruct (frames s !! r) as [df|] eqn:Hr.
  - rewrite (submit_data_spec r df s Hr).
    destruct (_evaluator (self s)); by split_and!.
  - rewrite submit_data_dangling by done. apply same_setup_refl.
Qed.

Lemma keeps_setup_step w : keeps same_setup (step w).
Proof.
  apply keeps_step;
    first [ exact same_setup_refl | exact same_setup_trans
          | exact keeps_setup_submit_data | by intros ? ? ].
Qed.

Lemma keeps_setup_exec_all s cs : same_setup (self s) (self (exec_all s cs)).
Proof.
  apply keeps_exec_all;
    first [ exact same_setup_refl | exact same_setup_trans
          | exact keeps_setup_submit_data | by intros ? ? ].
Qed.

Lemma options_reachable g ev vocs opts cs :
  options (self (exec_all (start g ev vocs opts) cs)) = opts.
Proof.
  by destruct (keeps_setup_exec_all (start g ev vocs opts) cs)
    as (_ & _ & -> & _).
Qed.



(** X4. [run] never ends through its loop condition: on an orchestrator
    that is not done, whatever the workers do, it goes on until a step
    raises or blocks. *)
Theorem run_never_returns ws s :
  _is_done (self s) = false →
  (run ws s).1 ≠ Ok true ∧
  ((run ws s).1 = Ok false → _is_done (self (run ws s).2) = false).
Proof.
  revert s. induction ws as [|w ws IH]; intros s Hdone.
  - simpl. munfold. simpl. by rewrite Hdone.
  - simpl. munfold. simpl. rewrite Hdone.
    pose proof (keeps_setup_step w s) as (_ & _ & _ & _ & Hd).
    destruct (step w s) as [[[]|e|] s1]; simpl in *; [|done..].
    apply IH. congruence.
Qed.

Lemma run_never_returns_witness :
  _is_done (self sync_start) = false ∧
  (run [first_returns_second_raises] sync_start).1 ≠ Ok true.
Proof.
  assert (_is_done (self sync_start) = false) as H1 by reflexivity.
  destruct (run_never_returns [first_returns_second_raises] sync_start H1)
    as [H2 _].
  split; [exact H1|exact H2].
Defined.

(** ** Handles *)

Lemma futures_after_submit_eq X df p :
  consistent X →
  _futures (after_submit X df p)
  = _futures X ++ zip (new_labels X df) (seq (length p) (length df)).
Proof.
  intros HX.
  assert (keys (zip (new_labels X df) (seq (length p) (length df)))
          = new_labels X df) as Hk.
  { unfold keys. apply fst_zip. rewrite length_new_labels, length_seq. lia. }
  assert (NoDup (new_labels X df)) as Hnd
    by (rewrite new_labels_seqZ; apply NoDup_seqZ).
  change (_futures (after_submit X df p))
    with (dict_update (_futures X)
            (dict_update []
               (zip (new_labels X df) (seq (length p) (length df))))).
  rewrite (dict_update_fresh []); [|by rewrite Hk|].
  2: { intros k _. apply not_elem_of_nil. }
  simpl. apply dict_update_fresh; [by rewrite Hk|].
  intros ix. rewrite Hk, new_labels_seqZ, elem_of_seqZ. intros Hix Hin.
  assert (ix ∈ seqZ 0 (_ix_last X + 1)) as Hold.
  { rewrite <- (indices_assigned X HX). apply elem_of_app. left.
    by rewrite <- (futures_pending X HX). }
  apply elem_of_seqZ in Hold. lia.
Qed.

Lemma values_after_submit X df p :
  consistent X →
  values (_futures (after_submit X df p))
  = values (_futures X) ++ seq (length p) (length df).
Proof.
  intros HX. rewrite futures_after_submit_eq by done.
  unfold values. rewrite fmap_app. f_equal. apply snd_zip.
  rewrite length_new_labels, length_seq. lia.
Qed.

Lemma length_resolve p ho : length (resolve p ho) = length p.
Proof.
  unfold resolve. destruct (p !! ho.1) as [[|o]|]; try done.
  apply length_insert.
Qed.

Lemma values_unfinished_sublist p (d : dict Z nat) :
  values (unfinished p d) `sublist_of` values d.
Proof. unfold values, unfinished. apply fmap_sublist, sublist_filter. Qed.

Lemma handles_allocated_after_submit X df p :
  consistent X → handles_allocated X p →
  handles_allocated (after_submit X df p)
    (p ++ replicate (length df) Running).
Proof.
  intros HX [Hnd Hlt]. unfold handles_allocated.
  rewrite values_after_submit by done. split.
  - apply NoDup_app. split_and!; [done| |apply NoDup_seq].
    intros h Hh Hnew. apply elem_of_seq in Hnew.
    rewrite Forall_forall in Hlt. specialize (Hlt h Hh). lia.
  - apply Forall_app. split.
    + eapply Forall_impl; [exact Hlt|]. intros h Hh. simpl in Hh.
      rewrite length_app. lia.
    + apply Forall_forall. intros h Hh%elem_of_seq.
      rewrite length_app, length_replicate. lia.
Qed.

Lemma handles_allocated_exec_all s cs :
  consistent (self s) → handles_allocated (self s) (pool s) →
  handles_allocated (self (exec_all s cs)) (pool (exec_all s cs)).
Proof.
  intros HX HP.
  apply (invariant_exec_all handles_allocated); [| | | | |done..].
  - apply handles_allocated_after_submit.
  - intros X p input g _ _ _ [Hnd Hlt].
    pose proof (values_unfinished_sublist p (_futures X)) as Hsub.
    split.
    + exact (sublist_NoDup _ _ Hnd Hsub).
    + apply Forall_forall. intros h Hh. rewrite Forall_forall in Hlt.
      apply Hlt. by eapply elem_of_sublist.
  - by intros X p g n _ _ HP'.
  - by intros X p n HP'.
  - intros X p ho _ [Hnd Hlt]. split; [done|].
    eapply Forall_impl; [exact Hlt|]. intros h Hh. simpl in Hh.
    by rewrite length_resolve.
Qed.

Lemma handles_allocated_before_wait s g ev :
  consistent (self s) → handles_allocated (self s) (pool s) →
  handles_allocated (self (before_wait s g ev)) (pool (before_wait s g ev)).
Proof.
  intros HX HP. simpl. apply handles_allocated_after_submit.
  - by apply consistent_set__generator.
  - done.
Qed.

Lemma handles_allocated_reachable g ev vocs opts cs :
  let s := exec_all (start (Some g) (Some ev) vocs opts) cs in
  handles_allocated (self s) (pool s).
Proof.
  apply handles_allocated_exec_all; [apply consistent_init|].
  split; [constructor|constructor].
Qed.

(** ** The count of unfinished futures *)

Lemma process_futures_returned w s n s' :
  consistent (self s) → process_futures w s = (Ok n, s') →
  ∃ input g,
    _input_data (self s) = Some input ∧ _generator (self s) = Some g ∧
    wait_returns w s = true ∧
    n = Z.of_nat (length (unfinished_at_return w s)) ∧
    s' = with_self
           (after_update (pool (after_stragglers w s)) (self s) input g)
           (after_stragglers w s).
Proof.
  intros HX. rewrite process_futures_unfold.
  destruct (wait_returns w s); [|done].
  destruct (strict_check w s (after_arrivals w s)).1; try done.
  destruct (update_data_consistent (after_stragglers w s) HX)
    as [[-> _]|(input & g & Hinput & Hg & ->)]; [done|].
  intros Heq. inversion Heq; subst. by exists input, g.
Qed.

Lemma remove_dups_NoDup {A} `{EqDecision A} (l : list A) :
  NoDup l → remove_dups l = l.
Proof.
  induction 1 as [|x l Hx _ IH]; [done|].
  simpl. destruct (decide_rel elem_of x l); [done|]. by rewrite IH.
Qed.

Lemma length_filter_impl {A} (P Q : A → Prop) `{∀ x, Decision (P x)}
    `{∀ x, Decision (Q x)} (l : list A) :
  (∀ x, x ∈ l → P x → Q x) →
  (length (filter P l) ≤ length (filter Q l))%nat.
Proof.
  induction l as [|x l IH]; intros Himpl; [done|].
  assert (length (filter P l) ≤ length (filter Q l))%nat as Hl.
  { apply IH. intros y Hy. apply Himpl. by right. }
  destruct (decide (P x)) as [HP|HP].
  - rewrite (filter_cons_True P) by done.
    rewrite (filter_cons_True Q) by (apply Himpl; [left|done]).
    simpl. lia.
  - rewrite (filter_cons_False P) by done.
    destruct (decide (Q x)).
    + rewrite (filter_cons_True Q) by done. simpl. lia.
    + by rewrite (filter_cons_False Q) by done.
Qed.

Lemma length_filter_done p b (d : dict Z nat) :
  length (filter (λ f, done p f = b) (values d))
  = length (filter (λ kv, done p kv.2 = b) d).
Proof.
  induction d as [|[k f] d IH]; [done|].
  change (values ((k, f) :: d)) with (f :: values d).
  destruct (decide (done p f = b)).
  - rewrite !filter_cons_True by done. simpl. by rewrite IH.
  - by rewrite !filter_cons_False by done.
Qed.

Lemma length_unfinished_at_return w s :
  NoDup (values (_futures (self s))) →
  length (unfinished_at_return w s)
  = length (unfinished (pool (after_arrivals w s)) (_futures (self s))).
Proof.
  intros Hnd. unfold unfinished_at_return, waited_for, unfinished.
  rewrite remove_dups_NoDup by done.
  apply length_filter_done.
Qed.

(** X5. What [process_futures] returns, and [step] records, counts the
    futures of the dictionary that had not finished when the wait
    returned: at most the futures there were, at least the futures left
    after the merge, and exactly those when no future finished between
    the wait and the merge. *)
Theorem unfinished_count g ev vocs opts cs w n s' :
  let s := exec_all (start (Some g) (Some ev) vocs opts) cs in
  process_futures w s = (Ok n, s') →
  Z.of_nat (length (_futures (self s'))) ≤ n ≤
    Z.of_nat (length (_futures (self s))) ∧
  (stragglers w = [] → n = Z.of_nat (length (_futures (self s')))).
Proof.
  intros s Hpf.
  pose proof (consistent_reachable g ev vocs opts cs) as HX. fold s in HX.
  destruct (handles_allocated_reachable g ev vocs opts cs) as [Hnd _].
  fold s in Hnd.
  apply process_futures_returned in Hpf
    as (input & g' & _ & _ & _ & -> & ->); [|done].
  rewrite length_unfinished_at_return by done. simpl.
  fold (after_arrivals w s). unfold unfinished. split_and!.
  - apply inj_le, length_filter_impl. intros [ix f] _. simpl.
    intros Hnot. destruct (done (pool (after_arrivals w s)) f) eqn:Hd;
      [|done].
    apply (done_resolve_all _ (stragglers w)) in Hd.
    simpl in Hd, Hnot. rewrite Hd in Hnot. discriminate.
  - apply inj_le, length_filter.
  - intros ->. done.
Qed.

Lemma unfinished_count_witness :
  process_futures first_returns
    (exec_all (start (Some gen0) (Some eval0) (Some vocs0) asynch_options)
       [call_submit_data two_rows])
  = (Ok 1,
     (process_futures first_returns
        (exec_all (start (Some gen0) (Some eval0) (Some vocs0) asynch_options)
           [call_submit_data two_rows])).2) ∧
  Z.of_nat (length (_futures (self
     (process_futures first_returns
        (exec_all (start (Some gen0) (Some eval0) (Some vocs0) asynch_options)
           [call_submit_data two_rows])).2))) ≤ 1.
Proof.
  assert (process_futures first_returns
    (exec_all (start (Some gen0) (Some eval0) (Some vocs0) asynch_options)
       [call_submit_data two_rows])
  = (Ok 1,
     (process_futures first_returns
        (exec_all (start (Some gen0) (Some eval0) (Some vocs0) asynch_options)
           [call_submit_data two_rows])).2)) as H1.
  { vm_compute. reflexivity. }
  destruct (unfinished_count gen0 eval0 (Some vocs0) asynch_options
              [call_submit_data two_rows] first_returns 1 _ H1)
    as [[H2 _] _].
  split; [exact H1|exact H2].
Defined.

(** ** A wait that times out *)

Lemma none_finished_before w s :
  none_finished (after_stragglers w s) → finished_at_return w s = [].
Proof.
  intros Hnone. apply filter_none. intros f Hf Hdone.
  unfold waited_for in Hf. rewrite elem_of_remove_dups in Hf.
  apply list_elem_of_fmap in Hf as ([ix f'] & -> & Hin).
  unfold none_finished in Hnone. rewrite Forall_forall in Hnone.
  specialize (Hnone (ix, f') Hin). simpl in *.
  apply (done_resolve_all _ (stragglers w)) in Hdone. simpl in Hdone.
  rewrite Hdone in Hnone. discriminate.
Qed.

Lemma set_iter_nil order : set_iter order [] = [].
Proof.
  apply elem_of_nil_inv. intros f. rewrite elem_of_set_iter.
  apply not_elem_of_nil.
Qed.

Lemma merged_batch_length p X input :
  NoDup (index input) → keys (_futures X) = index input →
  length (merged_batch p X input) = length (finished p (_futures X)).
Proof.
  intros Hnd Hkeys.
  pose proof (index_merged_batch p X input Hnd Hkeys) as Hix.
  apply (f_equal length) in Hix. unfold index, ix_done_of, keys in Hix.
  by rewrite !length_fmap in Hix.
Qed.

Lemma after_submit_input_data X df p :
  _input_data (after_submit X df p)
  = Some (pending X ++ submitted_frame X df).
Proof. unfold pending. simpl. by destruct (_input_data X). Qed.

(** X6. A wait that times out is no error: with a timeout set, a [step]
    during which no future finishes returns, merges no row, keeps every
    submitted row pending and records all the futures in flight as
    unfinished. *)
Theorem step_times_out g0 ev0 vocs0 opts cs w g ev vocs t :
  let s := exec_all (start (Some g0) (Some ev0) vocs0 opts) cs in
  _generator (self s) = Some g → _evaluator (self s) = Some ev →
  _vocs (self s) = Some vocs →
  timeout (options (self s)) = Some t →
  none_finished (after_stragglers w (before_wait s g ev)) →
  ∃ s',
    step w s = (Ok tt, s') ∧
    observations (self s') = observations (self s) ∧
    _futures (self s') = _futures (self (before_wait s g ev)) ∧
    pending (self s') = pending (self (before_wait s g ev)) ∧
    n_unfinished_futures (self s') = Z.of_nat (length (_futures (self s'))).
Proof.
  intros s Hg Hev Hvocs Ht Hnone.
  pose proof (consistent_reachable g0 ev0 vocs0 opts cs) as HX. fold s in HX.
  destruct (handles_allocated_reachable g0 ev0 vocs0 opts cs) as [Hnd Hlt].
  fold s in Hnd, Hlt.
  rewrite (step_configured w s g ev vocs) by done.
  set (bw := before_wait s g ev) in *.
  assert (consistent (self bw)) as Hbw.
  { apply consistent_after_submit. by apply consistent_set__generator. }
  assert (handles_allocated (self bw) (pool bw)) as [Hndbw _]
    by by apply handles_allocated_before_wait.
  rewrite process_futures_unfold.
  assert (wait_returns w bw = true) as ->.
  { unfold wait_returns.
    change (options (self bw)) with (options (self s)). rewrite Ht.
    rewrite bool_decide_eq_true_2 by (by eexists). apply orb_true_r. }
  assert ((strict_check w bw (after_arrivals w bw)).1 = Ok tt) as ->.
  { unfold strict_check.
    rewrite (none_finished_before w bw Hnone), set_iter_nil.
    by destruct (strict _). }
  set (u := after_stragglers w bw) in *.
  rewrite (update_data_idle u (none_finished_nil u Hnone)).
  change (_input_data (self u)) with (_input_data (self bw)).
  change (_generator (self u)) with (_generator (self bw)).
  destruct (has_generator _ Hbw) as [g' Hg']. rewrite Hg'.
  destruct (_input_data (self bw)) as [input|] eqn:Hinput.
  2: { unfold bw in Hinput. simpl in Hinput.
       by destruct (_input_data (self s)). }
  eexists. split; [reflexivity|]. simpl. split_and!.
  - fold (after_idle_merge (set__generator (Some (Generator_generate g (n_generate (self s) ev)).2) (self s))).
    unfold observations. simpl. destruct (_data (self s)); simpl; [|done].
    by rewrite app_nil_r.
  - done.
  - unfold pending. simpl. unfold bw in Hinput. simpl in Hinput. congruence.
  - rewrite length_unfinished_at_return by done.
    unfold unfinished. f_equal. f_equal. apply filter_all.
    intros [ix f] Hin. simpl.
    unfold none_finished in Hnone. rewrite Forall_forall in Hnone.
    specialize (Hnone (ix, f) Hin). simpl in Hnone.
    destruct (done (pool (after_arrivals w bw)) f) eqn:Hd; [|done].
    apply (done_resolve_all _ (stragglers w)) in Hd. simpl in Hd, Hnone.
    rewrite Hd in Hnone. discriminate.
Qed.

Lemma step_times_out_witness :
  _generator (self (exec_all
     (start (Some gen0) (Some eval0) (Some vocs0) timeout_options) []))
    = Some gen0 ∧
  none_finished
    (after_stragglers nothing_finishes
       (before_wait
          (exec_all
             (start (Some gen0) (Some eval0) (Some vocs0) timeout_options) [])
          gen0 eval0)) ∧
  ∃ s',
    step nothing_finishes
      (exec_all
         (start (Some gen0) (Some eval0) (Some vocs0) timeout_options) [])
    = (Ok tt, s') ∧
    n_unfinished_futures (self s') = Z.of_nat (length (_futures (self s'))).
Proof.
  assert (_generator (self (exec_all
     (start (Some gen0) (Some eval0) (Some vocs0) timeout_options) []))
    = Some gen0) as H1 by reflexivity.
  assert (_evaluator (self (exec_all
     (start (Some gen0) (Some eval0) (Some vocs0) timeout_options) []))
    = Some eval0) as H2 by reflexivity.
  assert (_vocs (self (exec_all
     (start (Some gen0) (Some eval0) (Some vocs0) timeout_options) []))
    = Some vocs0) as H3 by reflexivity.
  assert (timeout (options (self (exec_all
     (start (Some gen0) (Some eval0) (Some vocs0) timeout_options) [])))
    = Some 5) as H4 by reflexivity.
  assert (none_finished
    (after_stragglers nothing_finishes
       (before_wait
          (exec_all
             (start (Some gen0) (Some eval0) (Some vocs0) timeout_options) [])
          gen0 eval0))) as H5.
  { unfold none_finished. vm_compute. repeat constructor. }
  destruct (step_times_out gen0 eval0 (Some vocs0) timeout_options []
              nothing_finishes gen0 eval0 vocs0 5 H1 H2 H3 H4 H5)
    as (s' & Hstep & _ & _ & _ & Hn).
  split_and!; [exact H1|exact H5|].
  exists s'. split; [exact Hstep|exact Hn].
Defined.

(** ** Steps that return *)

Lemma consistent_before_wait s g ev :
  consistent (self s) → consistent (self (before_wait s g ev)).
Proof.
  intros HX. apply consistent_after_submit. by apply consistent_set__generator.
Qed.

(** The state a [step] that returns leaves. *)
Lemma step_returned w s g ev vocs s' :
  consistent (self s) →
  _generator (self s) = Some g → _evaluator (self s) = Some ev →
  _vocs (self s) = Some vocs →
  step w s = (Ok tt, s') →
  let bw := before_wait s g ev in
  let u := after_stragglers w bw in
  ∃ input g',
    _input_data (self bw) = Some input ∧ _generator (self bw) = Some g' ∧
    wait_returns w bw = true ∧
    s' = with_self
           (set_n_unfinished_futures
              (Z.of_nat (length (unfinished_at_return w bw)))
              (after_update (pool u) (self bw) input g')) u.
Proof.
  intros HX Hg Hev Hvocs Hstep bw u.
  rewrite (step_configured w s g ev vocs) in Hstep by done.
  fold bw in Hstep.
  destruct (process_futures w bw) as [[n|e|] s1] eqn:Hpf; [|done..].
  apply process_futures_returned in Hpf
    as (input & g' & Hinput & Hg' & Hret & -> & ->);
    [|by apply consistent_before_wait].
  exists input, g'. split_and!; [done..|]. by inversion Hstep.
Qed.

Lemma finished_nonempty p (d : dict Z nat) f :
  f ∈ values d → done p f = true → finished p d ≠ [].
Proof.
  intros Hf Hd Hnil. apply list_elem_of_fmap in Hf as ([ix f'] & -> & Hin).
  assert ((ix, f') ∈ finished p d) as Hfin
    by (apply list_elem_of_filter; by split).
  rewrite Hnil in Hfin. by apply not_elem_of_nil in Hfin.
Qed.

Lemma length_finished_unfinished p (d : dict Z nat) :
  (length (finished p d) + length (unfinished p d) = length d)%nat.
Proof.
  unfold finished, unfinished. induction d as [|[ix f] d IH]; [done|].
  destruct (done p f) eqn:Hd.
  - rewrite filter_cons_True by done.
    rewrite (filter_cons_False (λ kv, done p kv.2 = false))
      by (simpl; congruence).
    simpl. lia.
  - rewrite filter_cons_False by (simpl; congruence).
    rewrite (filter_cons_True (λ kv, done p kv.2 = false)) by done.
    simpl. lia.
Qed.

(** X7. Without a timeout an asynchronous [step] that returns has made
    progress: if any future was in flight when it waited, it has merged at
    least one row, handed that batch to the generator's view [_new_data],
    and the dictionary of futures has shrunk. *)
Theorem asynch_step_merges g0 ev0 vocs0 opts cs w g ev vocs s' :
  let s := exec_all (start (Some g0) (Some ev0) vocs0 opts) cs in
  asynch opts = true → timeout opts = None →
  _generator (self s) = Some g → _evaluator (self s) = Some ev →
  _vocs (self s) = Some vocs →
  _futures (self (before_wait s g ev)) ≠ [] →
  step w s = (Ok tt, s') →
  ∃ batch,
    batch ≠ [] ∧
    _new_data (self s') = Some batch ∧
    observations (self s') = observations (self s) ++ batch ∧
    (length (_futures (self s')) + length batch
     = length (_futures (self (before_wait s g ev))))%nat.
Proof.
  intros s Hasynch Htimeout Hg Hev Hvocs Hfut Hstep.
  pose proof (consistent_reachable g0 ev0 vocs0 opts cs) as HX. fold s in HX.
  pose proof (options_reachable (Some g0) (Some ev0) vocs0 opts cs) as Hopts.
  fold s in Hopts.
  destruct (step_returned w s g ev vocs s' HX Hg Hev Hvocs Hstep)
    as (input & g' & Hinput & Hg' & Hret & ->).
  set (bw := before_wait s g ev) in *.
  set (u := after_stragglers w bw) in *.
  pose proof (consistent_before_wait s g ev HX) as Hbw. fold bw in Hbw.
  assert (pending (self bw) = input) as Hpend
    by (unfold pending; by rewrite Hinput).
  assert (NoDup (index input)) as Hnd
    by (rewrite <- Hpend; by apply consistent_NoDup).
  assert (keys (_futures (self bw)) = index input) as Hkeys
    by (rewrite <- Hpend; by apply futures_pending).
  (* some future had finished when the wait returned *)
  assert (finished_at_return w bw ≠ []) as Hfin.
  { unfold wait_returns in Hret.
    change (options (self bw)) with (options (self s)) in Hret.
    rewrite Hopts, Htimeout in Hret.
    rewrite (bool_decide_eq_false_2 (is_Some None)) in Hret
      by (by intros [? ?]).
    rewrite orb_false_r in Hret.
    rewrite (return_when_asynch _ Hbw) in Hret.
    change (options (self bw)) with (options (self s)) in Hret.
    rewrite Hopts, Hasynch in Hret. simpl in Hret.
    apply orb_true_iff in Hret as [Hne|Hall].
    - by apply bool_decide_eq_true in Hne.
    - apply bool_decide_eq_true in Hall. intros Hnil.
      rewrite Hnil in Hall. simpl in Hall.
      symmetry in Hall. apply length_zero_iff_nil in Hall.
      unfold waited_for in Hall.
      destruct (_futures (self bw)) as [|[ix f] d] eqn:Hd; [done|].
      assert (f ∈ remove_dups (values ((ix, f) :: d))) as Hin
        by (apply elem_of_remove_dups; left).
      rewrite Hall in Hin. by apply not_elem_of_nil in Hin. }
  destruct (finished_at_return w bw) as [|f fs] eqn:Hfs; [done|].
  assert (f ∈ finished_at_return w bw) as Hf by (rewrite Hfs; left).
  unfold finished_at_return in Hf. apply list_elem_of_filter in Hf as [Hd Hin].
  unfold waited_for in Hin. rewrite elem_of_remove_dups in Hin.
  apply (done_resolve_all _ (stragglers w)) in Hd.
  pose proof (finished_nonempty (pool u) (_futures (self bw)) f Hin Hd)
    as Hne.
  pose proof (merged_batch_length (pool u) (self bw) input Hnd Hkeys) as Hlen.
  exists (merged_batch (pool u) (self bw) input). split_and!.
  - intros Hnil. rewrite Hnil in Hlen. simpl in Hlen.
    symmetry in Hlen. by apply length_zero_iff_nil in Hlen.
  - done.
  - change (observations (self s ) ++ merged_batch (pool u) (self bw) input)
      with (observations (self bw) ++ merged_batch (pool u) (self bw) input).
    apply (observations_after_update (pool u) (self bw) input g').
  - pose proof (length_finished_unfinished (pool u) (_futures (self bw)))
      as Hsum.
    change (_futures (self (with_self
              (set_n_unfinished_futures
                 (Z.of_nat (length (unfinished_at_return w bw)))
                 (after_update (pool u) (self bw) input g')) u)))
      with (unfinished (pool u) (_futures (self bw))).
    lia.
Qed.

Lemma asynch_step_merges_witness :
  asynch asynch_options = true ∧ timeout asynch_options = None ∧
  step first_returns
    (exec_all (start (Some gen0) (Some eval0) (Some vocs0) asynch_options) [])
  = (Ok tt,
     (step first_returns
        (exec_all
           (start (Some gen0) (Some eval0) (Some vocs0) asynch_options) [])).2)
  ∧
  ∃ batch,
    batch ≠ [] ∧
    _new_data (self
      (step first_returns
         (exec_all
            (start (Some gen0) (Some eval0) (Some vocs0) asynch_options) [])).2)
    = Some batch.
Proof.
  assert (asynch asynch_options = true) as H1 by reflexivity.
  assert (timeout asynch_options = None) as H2 by reflexivity.
  assert (_generator (self (exec_all
     (start (Some gen0) (Some eval0) (Some vocs0) asynch_options) []))
    = Some gen0) as H3 by reflexivity.
  assert (_evaluator (self (exec_all
     (start (Some gen0) (Some eval0) (Some vocs0) asynch_options) []))
    = Some eval0) as H4 by reflexivity.
  assert (_vocs (self (exec_all
     (start (Some gen0) (Some eval0) (Some vocs0) asynch_options) []))
    = Some vocs0) as H5 by reflexivity.
  assert (_futures (self (before_wait
     (exec_all (start (Some gen0) (Some eval0) (Some vocs0) asynch_options) [])
     gen0 eval0)) ≠ []) as H6.
  { vm_compute. discriminate. }
  assert (step first_returns
    (exec_all (start (Some gen0) (Some eval0) (Some vocs0) asynch_options) [])
  = (Ok tt,
     (step first_returns
        (exec_all
           (start (Some gen0) (Some eval0) (Some vocs0) asynch_options) [])).2))
    as H7.
  { vm_compute. reflexivity. }
  destruct (asynch_step_merges gen0 eval0 (Some vocs0) asynch_options []
              first_returns gen0 eval0 vocs0 _ H1 H2 H3 H4 H5 H6 H7)
    as (batch & Hne & Hnew & _).
  split_and!; [exact H1|exact H2|exact H7|].
  exists batch. split; [exact Hne|exact Hnew].
Defined.



(** ** The capacity of the evaluator *)

Lemma length_futures_after_submit X df p :
  consistent X →
  length (_futures (after_submit X df p))
  = (length (_futures X) + length df)%nat.
Proof.
  intros HX. rewrite futures_after_submit_eq by done.
  rewrite length_app, length_zip_with, length_new_labels, length_seq. lia.
Qed.

Lemma within_capacity_step g0 ev w s s' :
  returns_n_candidates g0 →
  within_capacity g0 ev s → step w s = (Ok tt, s') →
  within_capacity g0 ev s'.
Proof.
  intros Hhonest [HX Hh Hasynch Hev (g & asked & Hg & Hc & Hasked & Hreq)
                    Hbound] Hstep.
  destruct (missing_component (self s)) as [e|] eqn:Hmiss.
  { by rewrite (step_unconfigured w s e) in Hstep. }
  apply missing_component_None in Hmiss as (g1 & ev1 & vocs & Hg1 & Hev1 & Hv).
  rewrite Hg in Hg1. rewrite Hev in Hev1.
  inversion Hg1; subst g1. inversion Hev1; subst ev1.
  pose proof (consistent_step w s HX) as HX'.
  assert (handles_allocated (self (step w s).2) (pool (step w s).2)) as Hh'
    by exact (handles_allocated_exec_all s [call_step w] HX Hh).
  pose proof (keeps_setup_step w s) as (Hev' & _ & Hopts' & _).
  rewrite Hstep in HX', Hh', Hev', Hopts'. simpl in HX', Hh', Hev', Hopts'.
  destruct (step_returned w s g ev vocs s' HX Hg Hev Hv Hstep)
    as (input & g' & Hinput & Hg' & Hret & Hs').
  set (bw := before_wait s g ev) in *.
  set (u := after_stragglers w bw) in *.
  assert (n_generate (self s) ev = max_workers ev - n_unfinished_futures (self s))
    as Hn by (unfold n_generate; by rewrite Hasynch).
  assert (0 ≤ n_generate (self s) ev ≤ max_workers ev) as Hrange by lia.
  assert (length (_futures (self bw))
          = (length (_futures (self s))
             + Z.to_nat (n_generate (self s) ev))%nat) as Hlen.
  { change (self bw)
      with (after_submit
              (set__generator
                 (Some (Generator_generate g (n_generate (self s) ev)).2)
                 (self s))
              (Generator_generate g (n_generate (self s) ev)).1 (pool s)).
    rewrite length_futures_after_submit
      by (by apply consistent_set__generator).
    simpl. by rewrite Hc, Hhonest. }
  destruct (handles_allocated_before_wait s g ev HX Hh) as [Hndbw _].
  fold bw in Hndbw.
  split; try done.
  - congruence.
  - congruence.
  - subst s'. simpl.
    unfold bw, before_wait in Hg'. simpl in Hg'. inversion Hg'; subst g'.
    eexists. exists (n_generate (self s) ev :: asked).
    split; [reflexivity|]. simpl. split_and!; [done|by rewrite Hasked|].
    constructor; [lia|done].
  - subst s'. simpl.
    rewrite length_unfinished_at_return by done.
    fold (after_arrivals w bw). unfold unfinished. split.
    + apply inj_le, length_filter_impl. intros [ix f] _. simpl.
      intros Hnot. destruct (done (pool (after_arrivals w bw)) f) eqn:Hd;
        [|done].
      apply (done_resolve_all _ (stragglers w)) in Hd.
      simpl in Hd, Hnot. rewrite Hd in Hnot. discriminate.
    + pose proof (length_filter
        (λ kv : Z * nat, done (pool (after_arrivals w bw)) kv.2 = false)
        (_futures (self bw))) as Hle.
      lia.
Qed.

Lemma within_capacity_run g0 ev ws s b s' :
  returns_n_candidates g0 →
  within_capacity g0 ev s → run ws s = (Ok b, s') →
  within_capacity g0 ev s'.
Proof.
  intros Hhonest. revert s. induction ws as [|w ws IH]; intros s HJ Hrun.
  - simpl in Hrun. munfold. by inversion Hrun; subst.
  - simpl in Hrun. munfold. simpl in Hrun.
    destruct (_is_done (self s)); [by inversion Hrun; subst|].
    destruct (step w s) as [[[]|e|] s1] eqn:Hstep; [|done..].
    apply (IH s1); [|done]. by eapply within_capacity_step.
Qed.

(** X9. An asynchronous [run] stays within the capacity of the evaluator:
    with a generator that returns as many candidates as it is asked for,
    as long as the steps return, the futures in flight and the recorded
    count of unfinished futures never exceed [max_workers], and no request
    to the generator is negative or above [max_workers]. *)
Theorem asynch_run_within_capacity g ev vocs opts ws b s' :
  asynch opts = true → 0 ≤ max_workers ev →
  returns_n_candidates g →
  run ws (start (Some g) (Some ev) vocs opts) = (Ok b, s') →
  Z.of_nat (length (_futures (self s'))) ≤ n_unfinished_futures (self s')
    ≤ max_workers ev ∧
  ∃ g' asked,
    _generator (self s') = Some g' ∧
    requests g' = asked ++ requests g ∧
    Forall (λ n, 0 ≤ n ≤ max_workers ev) asked.
Proof.
  intros Hasynch Hmw Hhonest Hrun.
  destruct (within_capacity_run g ev ws
              (start (Some g) (Some ev) vocs opts) b s' Hhonest)
    as [_ _ _ _ (g' & asked & Hg' & _ & Hasked & Hreq) Hbound]; [|done|].
  - split.
    + apply consistent_init.
    + split; constructor.
    + done.
    + done.
    + exists g, []. by split_and!.
    + simpl. lia.
  - split; [done|]. by exists g', asked.
Qed.

Lemma asynch_run_within_capacity_witness :
  asynch asynch_options = true ∧ 0 ≤ max_workers eval0 ∧
  returns_n_candidates gen0 ∧
  run [first_returns; second_returns]
    (start (Some gen0) (Some eval0) (Some vocs0) asynch_options)
  = (Ok false,
     (run [first_returns; second_returns]
        (start (Some gen0) (Some eval0) (Some vocs0) asynch_options)).2) ∧
  n_unfinished_futures (self
    (run [first_returns; second_returns]
       (start (Some gen0) (Some eval0) (Some vocs0) asynch_options)).2)
  ≤ max_workers eval0.
Proof.
  assert (asynch asynch_options = true) as H1 by reflexivity.
  assert (0 ≤ max_workers eval0) as H2 by (simpl; lia).
  assert (returns_n_candidates gen0) as H3.
  { intros data n. simpl. rewrite length_fmap, length_seqZ. reflexivity. }
  assert (run [first_returns; second_returns]
    (start (Some gen0) (Some eval0) (Some vocs0) asynch_options)
  = (Ok false,
     (run [first_returns; second_returns]
        (start (Some gen0) (Some eval0) (Some vocs0) asynch_options)).2))
    as H4.
  { vm_compute. reflexivity. }
  destruct (asynch_run_within_capacity gen0 eval0 (Some vocs0) asynch_options
              [first_returns; second_returns] false _ H1 H2 H3 H4)
    as [[_ Hle] _].
  split_and!; [exact H1|exact H2|exact H3|exact H4|exact Hle].
Defined.

(** ** The last-index counter *)

Lemma ix_last_submit_data r s df :
  frames s !! r = Some df →
  _ix_last (self (submit_data r s).2) = _ix_last (self s) + len df.
Proof.
  intros Hr. rewrite (submit_data_spec r df s Hr).
  by destruct (_evaluator (self s)).
Qed.

Lemma keeps_ix_last_submit_data r : keeps ix_last_le (submit_data r).
Proof.
  intros s. unfold ix_last_le. destruct (frames s !! r) as [df|] eqn:Hr.
  - rewrite (ix_last_submit_data r s df Hr). unfold len. lia.
  - by rewrite submit_data_dangling.
Qed.

Lemma ix_last_exec_all s cs :
  _ix_last (self s) ≤ _ix_last (self (exec_all s cs)).
Proof.
  apply (keeps_exec_all ix_last_le); unfold ix_last_le;
    first [ exact keeps_ix_last_submit_data | by intros ? ?
          | intros; simpl; lia ].
Qed.

(** X10. A label is handed out once, on every orchestrator, configured or
    not: the counter never goes down, whatever is called and whether the
    calls return or raise, so the labels of a submission are below those
    of every later one. *)
Theorem labels_never_reused s df cs df' :
  let s1 := exec s (call_submit_data df) in
  let s2 := exec_all s1 cs in
  _ix_last (self s1) = _ix_last (self s) + len df ∧
  _ix_last (self s1) ≤ _ix_last (self s2) ∧
  ∀ ix ix', ix ∈ new_labels (self s) df → ix' ∈ new_labels (self s2) df' →
            ix < ix'.
Proof.
  intros s1 s2.
  assert (_ix_last (self s1) = _ix_last (self s) + len df) as H1.
  { unfold s1, exec. munfold. unfold new_frame.
    rewrite (ix_last_submit_data _ _ df); [done|].
    simpl. rewrite lookup_app_r by lia. by rewrite Nat.sub_diag. }
  pose proof (ix_last_exec_all s1 cs) as H2. fold s2 in H2.
  split_and!; [done..|].
  intros ix ix'. rewrite !new_labels_seqZ, !elem_of_seqZ. lia.
Qed.

(** ** Calls made too early or on an orchestrator that lacks a part *)

(** X11. Before the first submission [process_futures] does not wait: the
    set of futures is empty, the wait returns at once in either mode, and
    the merge then fails on the pending-input table, which is still
    [None]. The orchestrator is left as it was. *)
Theorem process_futures_before_submission w s :
  _input_data (self s) = None → _futures (self s) = [] →
  process_futures w s
  = (Raise (NoneType_has_no "loc"), after_stragglers w s) ∧
  self (after_stragglers w s) = self s.
Proof.
  intros Hinput Hfut. split; [|done].
  rewrite process_futures_unfold.
  assert (waited_for s = []) as Hw by (unfold waited_for; by rewrite Hfut).
  assert (finished_at_return w s = []) as Hfin
    by (unfold finished_at_return; by rewrite Hw).
  assert (wait_returns w s = true) as ->.
  { unfold wait_returns. rewrite Hfin, Hw.
    by destruct (return_when (self s)). }
  assert ((strict_check w s (after_arrivals w s)).1 = Ok tt) as ->.
  { unfold strict_check. rewrite Hfin, set_iter_nil.
    by destruct (strict _). }
  by rewrite update_data_no_input.
Qed.

Lemma process_futures_before_submission_witness :
  _input_data (self sync_start) = None ∧ _futures (self sync_start) = [] ∧
  process_futures first_returns sync_start
  = (Raise (NoneType_has_no "loc"), after_stragglers first_returns sync_start).
Proof.
  assert (_input_data (self sync_start) = None) as H1 by reflexivity.
  assert (_futures (self sync_start) = []) as H2 by reflexivity.
  destruct (process_futures_before_submission first_returns sync_start H1 H2)
    as [H3 _].
  split_and!; [exact H1|exact H2|exact H3].
Defined.

(** X12. Without an evaluator [submit_data] fails half way: it raises
    when it reaches for the evaluator, after the rows have been labelled,
    the counter advanced and the rows appended to the pending-input table.
    No future is created, so the labels are spent on rows that will never
    be evaluated. *)
Theorem submit_data_spends_labels r df s :
  _evaluator (self s) = None → frames s !! r = Some df →
  ∃ s',
    submit_data r s = (Raise (NoneType_has_no "submit_data"), s') ∧
    _ix_last (self s') = _ix_last (self s) + len df ∧
    pending (self s') = pending (self s) ++ submitted_frame (self s) df ∧
    index (submitted_frame (self s) df)
      = seqZ (_ix_last (self s) + 1) (len df) ∧
    _futures (self s') = _futures (self s) ∧
    pool s' = pool s.
Proof.
  intros Hev Hr. rewrite (submit_data_spec r df s Hr), Hev.
  eexists. split; [reflexivity|]. simpl. split_and!; try done.
  - apply pending_after_reindex.
  - by rewrite index_submitted_frame, new_labels_seqZ.
Qed.

Lemma submit_data_spends_labels_witness :
  _evaluator (self (new_frame two_rows
     (start (Some gen0) None None sync_options)).2) = None ∧
  frames (new_frame two_rows
     (start (Some gen0) None None sync_options)).2 !! 0%nat = Some two_rows ∧
  ∃ s',
    submit_data 0
      (new_frame two_rows (start (Some gen0) None None sync_options)).2
    = (Raise (NoneType_has_no "submit_data"), s') ∧
    _ix_last (self s') = 1.
Proof.
  assert (_evaluator (self (new_frame two_rows
     (start (Some gen0) None None sync_options)).2) = None) as H1
    by reflexivity.
  assert (frames (new_frame two_rows
     (start (Some gen0) None None sync_options)).2 !! 0%nat = Some two_rows)
    as H2 by reflexivity.
  destruct (submit_data_spends_labels 0 two_rows _ H1 H2)
    as (s' & Hraise & Hix & _).
  split_and!; [exact H1|exact H2|].
  exists s'. split; [exact Hraise|]. rewrite Hix. vm_compute. reflexivity.
Defined.

(** X13. Without a generator [update_data] fails after the merge and
    before the cleanup: the finished rows are in the observation table and
    their futures are gone, but the call raises when it reaches for the
    generator and the rows are never dropped from the pending-input table,
    so every merged label is in both tables. *)
Theorem update_data_skips_cleanup s input :
  _generator (self s) = None →
  _input_data (self s) = Some input →
  NoDup (index input) → keys (_futures (self s)) = index input →
  ∃ s' batch,
    update_data s = (Raise (NoneType_has_no "add_data"), s') ∧
    observations (self s') = observations (self s) ++ batch ∧
    _new_data (self s') = Some batch ∧
    index batch = ix_done_of (pool s) (self s) ∧
    _futures (self s') = unfinished (pool s) (_futures (self s)) ∧
    _input_data (self s') = Some input ∧
    ∀ ix, ix ∈ index batch →
          ix ∈ index (pending (self s')) ∧
          ix ∈ index (observations (self s')).
Proof.
  intros Hg Hinput Hnd Hkeys.
  rewrite (update_data_spec s input Hinput Hnd Hkeys), Hg.
  exists (with_self (after_merge (pool s) (self s) input) s),
    (merged_batch (pool s) (self s) input).
  assert (observations (after_merge (pool s) (self s) input)
          = observations (self s) ++ merged_batch (pool s) (self s) input)
    as Hobs.
  { change (observations (after_merge (pool s) (self s) input))
      with (pd_concat (_data (self s)) (merged_batch (pool s) (self s) input)).
    unfold observations. by destruct (_data (self s)). }
  pose proof (index_merged_batch (pool s) (self s) input Hnd Hkeys) as Hix.
  split_and!; try done.
  intros ix Hin. split.
  - unfold pending. simpl. rewrite Hinput. simpl. rewrite <- Hkeys.
    rewrite Hix in Hin. unfold ix_done_of in Hin.
    pose proof (keys_finished_subset (pool s) (_futures (self s))) as Hsub.
    rewrite Forall_forall in Hsub. by apply Hsub.
  - simpl. rewrite Hobs, index_app. apply elem_of_app. by right.
Qed.

Lemma update_data_skips_cleanup_witness :
  _generator (self (exec_all
     (start None (Some eval0) None sync_options)
     [call_submit_data two_rows;
      worker_finishes 0 (Returned [("y", VNum 1)])])) = None ∧
  _input_data (self (exec_all
     (start None (Some eval0) None sync_options)
     [call_submit_data two_rows;
      worker_finishes 0 (Returned [("y", VNum 1)])]))
  = Some [(0, [("x", VNum 10)]); (1, [("x", VNum 20)])] ∧
  ∃ s' batch,
    update_data (exec_all
     (start None (Some eval0) None sync_options)
     [call_submit_data two_rows;
      worker_finishes 0 (Returned [("y", VNum 1)])])
    = (Raise (NoneType_has_no "add_data"), s') ∧
    index batch = [0] ∧
    _input_data (self s')
    = Some [(0, [("x", VNum 10)]); (1, [("x", VNum 20)])] ∧
    observations (self s') = batch.
Proof.
  assert (_generator (self (exec_all
     (start None (Some eval0) None sync_options)
     [call_submit_data two_rows;
      worker_finishes 0 (Returned [("y", VNum 1)])])) = None) as H1
    by reflexivity.
  assert (_input_data (self (exec_all
     (start None (Some eval0) None sync_options)
     [call_submit_data two_rows;
      worker_finishes 0 (Returned [("y", VNum 1)])]))
  = Some [(0, [("x", VNum 10)]); (1, [("x", VNum 20)])]) as H2.
  { vm_compute. reflexivity. }
  assert (NoDup (index [(0, [("x", VNum 10)]); (1, [("x", VNum 20)])])) as H3.
  { refine (bool_decide_unpack _ _). vm_compute. exact I. }
  assert (keys (_futures (self (exec_all
     (start None (Some eval0) None sync_options)
     [call_submit_data two_rows;
      worker_finishes 0 (Returned [("y", VNum 1)])])))
    = index [(0, [("x", VNum 10)]); (1, [("x", VNum 20)])]) as H4.
  { vm_compute. reflexivity. }
  destruct (update_data_skips_cleanup _ _ H1 H2 H3 H4)
    as (s' & batch & Hraise & Hobs & _ & Hix & _ & Hin & _).
  split_and!; [exact H1|exact H2|].
  exists s', batch. split_and!; [exact Hraise| |exact Hin|].
  - rewrite Hix. vm_compute. reflexivity.
  - rewrite Hobs. vm_compute. reflexivity.
Defined.

(** ** Steps without strict mode *)




(** * The helpers of the Bayesian generators *)

(** ** [rectilinear_domain_union] *)





(** ** [set_botorch_weights] *)

Lemma set_weights_spec names objectives k weights :
  Forall (λ ele, is_Some (dict_get ele objectives)) names →
  (k + length names ≤ length weights)%nat →
  ∃ out,
    utils.set_weights (zip (seq k (length names)) names) objectives weights
    = (None, out) ∧
    length out = length weights ∧
    ∀ idx w, weights !! idx = Some w →
      out !! idx =
        Some (if decide (idx < k)%nat then w
              else match names !! (idx - k)%nat with
                   | Some ele => utils.botorch_weight objectives ele w
                   | None => w
                   end).
Proof.
  revert k weights. induction names as [|ele names IH];
    intros k weights Hfound Hlen.
  - exists weights. split_and!; [done..|]. intros idx w Hw.
    rewrite lookup_nil. by case_decide.
  - apply Forall_cons in Hfound as [[direction Hd] Hfound].
    simpl in Hlen. simpl. rewrite Hd.
    assert (∀ v : Q,
      ∃ out,
        utils.set_weights (zip (seq (S k) (length names)) names) objectives
          (<[k := v]> weights) = (None, out) ∧
        length out = length weights ∧
        ∀ idx w, weights !! idx = Some w →
          out !! idx =
            Some (if decide (idx < k)%nat then w
                  else match (ele :: names) !! (idx - k)%nat with
                       | Some ele' =>
                           if decide (idx = k) then v
                           else utils.botorch_weight objectives ele' w
                       | None => w
                       end)) as Hset.
    { intros v.
      destruct (IH (S k) (<[k := v]> weights)) as (out & Hout & Hl & Hlook);
        [done|rewrite length_insert; lia|].
      exists out. split_and!; [done|by rewrite Hl, length_insert|].
      intros idx w Hw.
      destruct (decide (idx = k)) as [->|Hne].
      - rewrite (Hlook k v) by (apply list_lookup_insert_eq; lia).
        rewrite decide_True by lia. rewrite decide_False by lia.
        by rewrite Nat.sub_diag.
      - rewrite (Hlook idx w) by (by rewrite list_lookup_insert_ne).
        destruct (decide (idx < k)%nat).
        + by rewrite decide_True by lia.
        + rewrite decide_False by lia.
          replace (idx - k)%nat with (S (idx - S k)) by lia. done. }
    assert (∀ idx ele', (ele :: names) !! (idx - k)%nat = Some ele' →
              idx = k → ele' = ele) as Hhead.
    { intros idx ele' Hl ->. rewrite Nat.sub_diag in Hl. by inversion Hl. }
    unfold utils.botorch_weight.
    destruct (decide (direction = "MINIMIZE")) as [->|Hmin].
    { rewrite decide_True by lia.
      destruct (Hset (-1)%Q) as (out & Hout & Hl & Hlook).
      exists out. split_and!; [done..|]. intros idx w Hw.
      rewrite (Hlook idx w Hw). f_equal. case_decide; [done|].
      destruct ((ele :: names) !! (idx - k)%nat) as [ele'|] eqn:Hl'; [|done].
      case_decide; [|done]. rewrite (Hhead idx ele' Hl') by done.
      by rewrite Hd, decide_True. }
    destruct (decide (direction = "MAXIMIZE")) as [->|Hmax].
    { rewrite decide_True by lia.
      destruct (Hset 1%Q) as (out & Hout & Hl & Hlook).
      exists out. split_and!; [done..|]. intros idx w Hw.
      rewrite (Hlook idx w Hw). f_equal. case_decide; [done|].
      destruct ((ele :: names) !! (idx - k)%nat) as [ele'|] eqn:Hl'; [|done].
      case_decide; [|done]. rewrite (Hhead idx ele' Hl') by done.
      by rewrite Hd. }
    destruct (IH (S k) weights) as (out & Hout & Hl & Hlook); [done|lia|].
    exists out. split_and!; [done..|]. intros idx w Hw.
    rewrite (Hlook idx w Hw). f_equal.
    destruct (decide (idx = k)) as [->|Hne].
    + rewrite decide_True by lia. rewrite decide_False by lia.
      rewrite Nat.sub_diag. simpl. rewrite Hd.
      by rewrite !decide_False.
    + destruct (decide (idx < k)%nat).
      * by rewrite decide_True by lia.
      * rewrite decide_False by lia.
        by replace (idx - k)%nat with (S (idx - S k)) by lia.
Qed.

Lemma botorch_weight_idem objectives ele w :
  utils.botorch_weight objectives ele
    (utils.botorch_weight objectives ele w)
  = utils.botorch_weight objectives ele w.
Proof.
  unfold utils.botorch_weight.
  destruct (dict_get ele objectives) as [d|]; [|done].
  by repeat case_decide.
Qed.

(** X16. With a direction for every objective and a weight for every
    objective, [set_botorch_weights] returns the weights it was given,
    assigned in place: the entry of a MINIMIZE objective is -1, that of a
    MAXIMIZE objective is 1, and every other entry, that of an objective
    with another direction or beyond the objectives, is what it was.
    Applying it again changes nothing. *)
Theorem set_botorch_weights_values weights vocs :
  Forall (λ ele, is_Some (dict_get ele (utils.objectives vocs)))
    (utils.objective_names vocs) →
  (length (utils.objective_names vocs) ≤ length weights)%nat →
  ∃ out,
    utils.set_botorch_weights weights vocs = (None, out) ∧
    length out = length weights ∧
    (∀ idx w, weights !! idx = Some w →
       out !! idx =
         Some (match utils.objective_names vocs !! idx with
               | Some ele => utils.botorch_weight (utils.objectives vocs) ele w
               | None => w
               end)) ∧
    utils.set_botorch_weights out vocs = (None, out).
Proof.
  intros Hfound Hlen. unfold utils.set_botorch_weights, utils.enumerate.
  destruct (set_weights_spec (utils.objective_names vocs)
              (utils.objectives vocs) 0 weights Hfound)
    as (out & Hout & Hl & Hlook); [lia|].
  assert (∀ idx w, weights !! idx = Some w →
       out !! idx =
         Some (match utils.objective_names vocs !! idx with
               | Some ele => utils.botorch_weight (utils.objectives vocs) ele w
               | None => w
               end)) as Hlook'.
  { intros idx w Hw. rewrite (Hlook idx w Hw).
    rewrite decide_False by lia. by rewrite Nat.sub_0_r. }
  exists out. split_and!; [done..|].
  destruct (set_weights_spec (utils.objective_names vocs)
              (utils.objectives vocs) 0 out Hfound)
    as (out2 & Hout2 & Hl2 & Hlook2); [lia|].
  rewrite Hout2. f_equal. apply list_eq. intros idx.
  destruct (weights !! idx) as [w|] eqn:Hw.
  - rewrite (Hlook2 idx _ (Hlook' idx w Hw)), (Hlook' idx w Hw).
    rewrite decide_False by lia. rewrite Nat.sub_0_r.
    destruct (utils.objective_names vocs !! idx); [|done].
    by rewrite botorch_weight_idem.
  - apply lookup_ge_None in Hw.
    rewrite !(proj2 (lookup_ge_None _ _)); [done|lia..].
Qed.

Lemma set_botorch_weights_values_witness :
  Forall (λ ele, is_Some (dict_get ele (utils.objectives utils.two_objectives)))
    (utils.objective_names utils.two_objectives) ∧
  (length (utils.objective_names utils.two_objectives)
   ≤ length [0%Q; 0%Q; 0%Q])%nat ∧
  ∃ out,
    utils.set_botorch_weights [0%Q; 0%Q; 0%Q] utils.two_objectives
    = (None, out) ∧
    length out = 3%nat.
Proof.
  assert (Forall
    (λ ele, is_Some (dict_get ele (utils.objectives utils.two_objectives)))
    (utils.objective_names utils.two_objectives)) as H1.
  { repeat constructor; by eexists. }
  assert (length (utils.objective_names utils.two_objectives)
          ≤ length [0%Q; 0%Q; 0%Q])%nat as H2 by (simpl; lia).
  destruct (set_botorch_weights_values [0%Q; 0%Q; 0%Q] utils.two_objectives
              H1 H2) as (out & Hout & Hlen & _).
  split_and!; [exact H1|exact H2|].
  exists out. split; [exact Hout|exact Hlen].
Defined.

(** ** [get_training_data] *)


Lemma column_position_Some name columns pos :
  utils.column_position name columns = Some pos → name ∈ columns.
Proof.
  revert pos. induction columns as [|c columns IH]; intros pos; [done|].
  simpl. case_decide; [intros _; subst; left|].
  destruct (utils.column_position name columns) as [p|] eqn:Hp; [|done].
  intros _. right. by eapply IH.
Qed.









Lemma set_weights_app items1 items2 objectives weights :
  utils.set_weights (items1 ++ items2) objectives weights =
    match utils.set_weights items1 objectives weights with
    | (None, weights') => utils.set_weights items2 objectives weights'
    | r => r
    end.
Proof.
  revert weights. induction items1 as [|[idx ele] items1 IH]; intros weights;
    [done|].
  simpl. destruct (dict_get ele objectives) as [direction|]; [|done].
  repeat case_decide; by rewrite ?IH.
Qed.

Lemma enumerate_app {A} (l1 l2 : list A) :
  utils.enumerate (l1 ++ l2)
  = utils.enumerate l1 ++ zip (seq (length l1) (length l2)) l2.
Proof.
  unfold utils.enumerate. rewrite length_app, seq_app.
  rewrite zip_with_app by (by rewrite length_seq). done.
Qed.

(** X18. With fewer weights than objectives, [set_botorch_weights] raises
    [IndexError] at the first objective that has no weight, when that
    objective is to be minimised or maximised - after it has assigned, in
    place, the weights of the objectives before it. *)
Theorem set_botorch_weights_too_short weights vocs pre ele post direction :
  utils.objective_names vocs = pre ++ ele :: post →
  Forall (λ ele, is_Some (dict_get ele (utils.objectives vocs))) pre →
  dict_get ele (utils.objectives vocs) = Some direction →
  direction = "MINIMIZE" ∨ direction = "MAXIMIZE" →
  length weights = length pre →
  ∃ out,
    utils.set_botorch_weights weights vocs
    = (Some (utils.IndexError "index out of range"), out) ∧
    length out = length weights ∧
    ∀ idx e w, pre !! idx = Some e → weights !! idx = Some w →
      out !! idx = Some (utils.botorch_weight (utils.objectives vocs) e w).
Proof.
  intros Hnames Hfound Hd Hdir Hlen.
  unfold utils.set_botorch_weights. rewrite Hnames, enumerate_app.
  rewrite set_weights_app. unfold utils.enumerate.
  destruct (set_weights_spec pre (utils.objectives vocs) 0 weights Hfound)
    as (out & -> & Hl & Hlook); [lia|].
  exists out. simpl. rewrite Hd. split_and!.
  - destruct Hdir as [->| ->].
    + rewrite decide_True by done. by rewrite decide_False by lia.
    + rewrite decide_False by done. rewrite decide_True by done.
      by rewrite decide_False by lia.
  - done.
  - intros idx e w He Hw. rewrite (Hlook idx w Hw).
    rewrite decide_False by lia. by rewrite Nat.sub_0_r, He.
Qed.

Lemma set_botorch_weights_too_short_witness :
  utils.objective_names utils.two_objectives = ["y1"] ++ "y2" :: [] ∧
  length [0%Q] = length ["y1"] ∧
  ∃ out,
    utils.set_botorch_weights [0%Q] utils.two_objectives
    = (Some (utils.IndexError "index out of range"), out) ∧
    out !! 0%nat = Some (-1)%Q.
Proof.
  assert (utils.objective_names utils.two_objectives = ["y1"] ++ "y2" :: [])
    as H1 by reflexivity.
  assert (Forall
    (λ ele, is_Some (dict_get ele (utils.objectives utils.two_objectives)))
    ["y1"]) as H2.
  { repeat constructor; by eexists. }
  assert (dict_get "y2" (utils.objectives utils.two_objectives)
          = Some "MAXIMIZE") as H3 by reflexivity.
  assert ("MAXIMIZE" = "MINIMIZE" ∨ "MAXIMIZE" = "MAXIMIZE") as H4
    by (right; reflexivity).
  assert (length [0%Q] = length ["y1"]) as H5 by reflexivity.
  destruct (set_botorch_weights_too_short [0%Q] utils.two_objectives
              ["y1"] "y2" [] "MAXIMIZE" H1 H2 H3 H4 H5)
    as (out & Hout & _ & Hlook).
  split_and!; [exact H1|exact H5|].
  exists out. split; [exact Hout|].
  rewrite (Hlook 0%nat "y1" 0%Q); [vm_compute; reflexivity|reflexivity..].
Defined.
